(** * ai-voice-tuning: the process orchestration core

    A shallow embedding of the job registry ([app.locals.audioFiles]), the
    worker invoker ([src/services/pythonService.js]), the process controller
    ([controllers/processController.js]) and the two retention sweepers
    ([src/services/fileManager.js], [utils/cleanup.js]), with the properties
    the specification states about them. *)

From Stdlib Require Import ZArith NArith QArith Ascii String List Bool Lia DecimalString.
From Stdlib Require Import DecimalPos DecimalZ.
From stdpp Require Import base option list gmap fin_maps.

Local Open Scope Z_scope.

(** ** JavaScript strings

    A JavaScript string is a sequence of UTF-16 code units.  The chunks the
    child process writes arrive already decoded ([data.toString()]). *)

Definition lit (s : string) : list N :=
  List.map N_of_ascii (list_ascii_of_string s).

(** [WhiteSpace] and [LineTerminator] of ECMAScript, the code units that
    [String.prototype.trim] strips. *)
Definition isLineTerminator (c : N) : bool :=
  (N.eqb c 10 || N.eqb c 13 || N.eqb c 8232 || N.eqb c 8233)%bool.

Definition isWhiteSpace (c : N) : bool :=
  (N.eqb c 9 || N.eqb c 11 || N.eqb c 12 || N.eqb c 32 || N.eqb c 160
   || N.eqb c 5760 || (N.leb 8192 c && N.leb c 8202) || N.eqb c 8239
   || N.eqb c 8287 || N.eqb c 12288 || N.eqb c 65279
   || isLineTerminator c)%bool.

Fixpoint trimStart (s : list N) : list N :=
  match s with
  | c :: s' => if isWhiteSpace c then trimStart s' else s
  | [] => []
  end.

Definition trimEnd (s : list N) : list N := rev (trimStart (rev s)).

Definition trim (s : list N) : list N := trimEnd (trimStart s).

(** [a || b] on strings: the empty string is the only falsy string. *)
Definition str_or (a b : list N) : list N :=
  match a with [] => b | _ => a end.

(** [o[k] || b] where [o[k]] may be [undefined]. *)
Definition prop_or (a : option (list N)) (b : list N) : list N :=
  match a with Some v => str_or v b | None => b end.

Definition eqstr (a b : list N) : bool := bool_decide (a = b).

(** [Number.prototype.toString] as the template literals use it, on an
    integer a Number holds exactly and prints in full: all its decimal
    digits, a leading minus sign for negatives.  That is every integer of
    magnitude below [2 ^ 53] (what [Date.now()] returns lies far below
    it); above, a Number is a rounded value, printed with the shortest
    digits that identify it and in exponent form from [1e21]. *)
Definition Number_toString (n : Z) : list N :=
  lit (NilZero.string_of_int (Z.to_int n)).

(** The integers [Number_toString] is exact on. *)
Definition safeInteger (n : Z) : Prop := Z.abs n < 2 ^ 53.

(** The names of the properties of [Object.prototype].  On a plain
    object [o], [o[k]] finds an inherited value under these names when
    [o] has no property [k] of its own; under every other name it finds
    the own property or [undefined]. *)
Definition Object_prototype : list (list N) :=
  [ lit "constructor"; lit "__defineGetter__"; lit "__defineSetter__";
    lit "hasOwnProperty"; lit "__lookupGetter__"; lit "__lookupSetter__";
    lit "isPrototypeOf"; lit "propertyIsEnumerable"; lit "toString";
    lit "valueOf"; lit "__proto__"; lit "toLocaleString" ].

Definition inherited (k : list N) : bool := existsb (eqstr k) Object_prototype.

(** ** [src/services/pythonService.js] *)

Module PythonService.

(** *** The regular expression [/ERROR:([A-Z_]+):(.+)/]

    [String.prototype.match] without the [g] flag returns the leftmost
    match.  At a start position the pattern is deterministic: [[A-Z_]+]
    is greedy and the character after it must be [:], which is outside
    the class, so only the longest run can be followed by [:]; [(.+)] is
    greedy and the pattern ends there, so it takes every code unit up to
    the next line terminator and needs at least one. *)

Definition isCodeChar (c : N) : bool :=
  ((N.leb 65 c && N.leb c 90) || N.eqb c 95)%bool.

Fixpoint span (p : N → bool) (s : list N) : list N * list N :=
  match s with
  | c :: s' => if p c then let '(a, b) := span p s' in (c :: a, b) else ([], s)
  | [] => ([], [])
  end.

Fixpoint stripPrefix (p s : list N) : option (list N) :=
  match p, s with
  | [], _ => Some s
  | a :: p', b :: s' => if N.eqb a b then stripPrefix p' s' else None
  | _ :: _, [] => None
  end.

(** The two capture groups of a match that starts at the head of [s]. *)
Definition matchHere (s : list N) : option (list N * list N) :=
  match stripPrefix (lit "ERROR:") s with
  | None => None
  | Some s1 =>
      match span isCodeChar s1 with
      | ([], _) => None
      | (errorType, 58%N :: s2) =>
          match span (λ c, negb (isLineTerminator c)) s2 with
          | ([], _) => None
          | (detail, _) => Some (errorType, detail)
          end
      | (_, _) => None
      end
  end.

(** [errorOutput.match(/ERROR:([A-Z_]+):(.+)/)]: groups 1 and 2 of the
    leftmost match, [None] for [null]. *)
Fixpoint errorMatch (s : list N) : option (list N * list N) :=
  match matchHere s with
  | Some g => Some g
  | None => match s with [] => None | _ :: s' => errorMatch s' end
  end.

(** The object literal [errorMessages], as its own properties in source
    order.  A key in [[A-Z_]+] never names a property inherited from
    [Object.prototype], so the lookup sees own properties only. *)
Definition errorMessages (errorMessage : list N) : list (list N * list N) :=
  [ (lit "FILE_NOT_FOUND", lit "Audio file not found");
    (lit "INVALID_ARGUMENTS", lit "Invalid arguments provided to Python engine");
    (lit "PROCESSING_FAILED", lit "Audio processing failed: " ++ errorMessage) ].

Fixpoint getProp (o : list (list N * list N)) (k : list N) : option (list N) :=
  match o with
  | (k', v) :: o' => if eqstr k' k then Some v else getProp o' k
  | [] => None
  end.

Definition parseErrorMessage (errorOutput : list N) : list N :=
  match errorMatch errorOutput with
  | Some (errorType, group2) =>
      let errorMessage := trim group2 in
      prop_or (getProp (errorMessages errorMessage) errorType)
              (lit "Processing error: " ++ errorMessage)
  | None => str_or (trim errorOutput) (lit "Unknown Python processing error")
  end.

(** *** [processAudio]: the promise and its event handlers

    The body of the promise executor registers five callbacks and
    returns; everything after that happens in callbacks the event loop
    runs one at a time.  An invocation is therefore a state (the
    variables the closures share, the timer, the child, the promise)
    and the sequence of events delivered to it. *)

Inductive outcome :=
| Resolved (outputPath : list N)      (* resolve(trimmedPath) *)
| Rejected (message : list N).        (* reject(new Error(message)) *)

Inductive event :=
| StdoutData (data : list N)          (* python.stdout 'data' *)
| StderrData (data : list N)          (* python.stderr 'data' *)
| Close (code : option Z)             (* python 'close'; null when killed by a signal *)
| SpawnError (message : list N)       (* python 'error' *)
| TimerFired.                         (* the setTimeout delay has elapsed *)

Record state := {
  outputPath : list N;
  errorOutput : list N;
  timerArmed : bool;                  (* timeoutId is pending: not fired, not cleared *)
  processCompleted : bool;
  killed : bool;                      (* python.kill('SIGTERM') was called *)
  calls : list outcome                (* the calls to resolve/reject, oldest first *)
}.

Definition init : state :=
  {| outputPath := []; errorOutput := []; timerArmed := true;
     processCompleted := false; killed := false; calls := [] |}.

Definition timeoutMessage (timeout : Z) : list N :=
  lit "Processing timeout: exceeded " ++ Number_toString timeout ++ lit "ms".

Definition emptyOutputMessage : list N :=
  lit "Python process succeeded but returned no output path".

Definition spawnMessage (message : list N) : list N :=
  lit "Failed to start Python engine: " ++ message.

Definition onTimeout (timeout : Z) (st : state) : state :=
  if processCompleted st then st
  else {| outputPath := outputPath st; errorOutput := errorOutput st;
          timerArmed := timerArmed st; processCompleted := true;
          killed := true;
          calls := calls st ++ [Rejected (timeoutMessage timeout)] |}.

Definition onStdout (data : list N) (st : state) : state :=
  {| outputPath := outputPath st ++ data; errorOutput := errorOutput st;
     timerArmed := timerArmed st; processCompleted := processCompleted st;
     killed := killed st; calls := calls st |}.

Definition onStderr (data : list N) (st : state) : state :=
  {| outputPath := outputPath st; errorOutput := errorOutput st ++ data;
     timerArmed := timerArmed st; processCompleted := processCompleted st;
     killed := killed st; calls := calls st |}.

(** What the ['close'] handler passes to resolve/reject once it has
    claimed the completion. *)
Definition closeOutcome (code : option Z) (st : state) : outcome :=
  match code with
  | Some 0 =>
      let trimmedPath := trim (outputPath st) in
      match trimmedPath with
      | [] => Rejected emptyOutputMessage
      | _ => Resolved trimmedPath
      end
  | _ => Rejected (parseErrorMessage (errorOutput st))
  end.

Definition onClose (code : option Z) (st : state) : state :=
  if processCompleted st then st
  else {| outputPath := outputPath st; errorOutput := errorOutput st;
          timerArmed := false;                       (* clearTimeout *)
          processCompleted := true; killed := killed st;
          calls := calls st ++ [closeOutcome code st] |}.

Definition onError (message : list N) (st : state) : state :=
  if processCompleted st then st
  else {| outputPath := outputPath st; errorOutput := errorOutput st;
          timerArmed := false;                       (* clearTimeout *)
          processCompleted := true; killed := killed st;
          calls := calls st ++ [Rejected (spawnMessage message)] |}.

(** The event loop runs the timer callback only while the timer is
    pending; a timer fires once. *)
Definition dispatch (timeout : Z) (st : state) (e : event) : state :=
  match e with
  | StdoutData d => onStdout d st
  | StderrData d => onStderr d st
  | Close code => onClose code st
  | SpawnError m => onError m st
  | TimerFired =>
      if timerArmed st then
        onTimeout timeout
          {| outputPath := outputPath st; errorOutput := errorOutput st;
             timerArmed := false; processCompleted := processCompleted st;
             killed := killed st; calls := calls st |}
      else st
  end.

Definition run (timeout : Z) (st : state) (evs : list event) : state :=
  fold_left (dispatch timeout) evs st.

(** A promise keeps its first settlement. *)
Definition settled (st : state) : option outcome := head (calls st).

(** [await pythonService.processAudio(...)] over the events of one child
    process: [None] while the promise is pending. *)
Definition processAudio (timeout : Z) (evs : list event) : option outcome :=
  settled (run timeout init evs).

Definition settles (e : event) : bool :=
  match e with
  | Close _ | SpawnError _ | TimerFired => true
  | _ => false
  end.

(** The text accumulated from a stream by a run of events. *)
Definition stdoutOf (evs : list event) : list N :=
  flat_map (λ e, match e with StdoutData d => d | _ => [] end) evs.

Definition stderrOf (evs : list event) : list N :=
  flat_map (λ e, match e with StderrData d => d | _ => [] end) evs.

(** *** [validateEnvironment]

    [String.prototype.includes], then the promise of
    [validateEnvironment]: its handlers carry no completion flag, the
    promise keeps the first settlement, and the [catch] around the
    [await] turns a rejection into [false]. *)
Fixpoint startsWith (p s : list N) : bool :=
  match p, s with
  | [], _ => true
  | a :: p', b :: s' => N.eqb a b && startsWith p' s'
  | _ :: _, [] => false
  end.

Fixpoint includes (p s : list N) : bool :=
  startsWith p s || match s with [] => false | _ :: s' => includes p s' end.

(** The accumulated [output] and the settlements so far ([true] for
    [resolve(true)], [false] for a [reject]).  Only stdout ['data'],
    ['close'] and ['error'] have listeners. *)
Definition validateStep (st : list N * list bool) (e : event) : list N * list bool :=
  let '(output, settlements) := st in
  match e with
  | StdoutData d => (output ++ d, settlements)
  | Close code =>
      (output,
       settlements ++ [match code with
                       | Some 0 => includes (lit "OK") output
                       | _ => false
                       end])
  | SpawnError _ => (output, settlements ++ [false])
  | _ => st
  end.

(** [await validateEnvironment()]: [None] while the promise is pending. *)
Definition validateEnvironment (evs : list event) : option bool :=
  head (fold_left validateStep evs ([], [])).2.

(** The events that settle the promise of [validateEnvironment]. *)
Definition closes (e : event) : bool :=
  match e with
  | Close _ | SpawnError _ => true
  | _ => false
  end.

(** What it is for [errorOutput] to contain a match of the pattern: the
    text before it, the two groups, and the text after it. *)
Definition matchAt (s pre errorType detail post : list N) : Prop :=
  s = pre ++ lit "ERROR:" ++ errorType ++ 58%N :: detail ++ post
  ∧ errorType ≠ [] ∧ Forall (λ c, isCodeChar c = true) errorType
  ∧ detail ≠ [] ∧ Forall (λ c, isLineTerminator c = false) detail.

(** What the first settling event of an invocation passes to
    resolve/reject, given the state it finds. *)
Definition verdict (timeout : Z) (st : state) (e : event) : outcome :=
  match e with
  | Close code => closeOutcome code st
  | SpawnError m => Rejected (spawnMessage m)
  | _ => Rejected (timeoutMessage timeout)
  end.

(** The events before the first settling one, and that event. *)
Fixpoint firstSettling (evs : list event) : option (list event * event) :=
  match evs with
  | [] => None
  | e :: evs' =>
      if settles e then Some ([], e)
      else match firstSettling evs' with
           | Some (pre, s) => Some (e :: pre, s)
           | None => None
           end
  end.

End PythonService.

(** ** The job registry: [req.app.locals.audioFiles]

    A plain object from audio id to a metadata object.  The controllers
    only ever add a binding (upload) and mutate the object a binding
    points to; no binding is removed or replaced by the server, so a
    mutation through the reference a handler holds is a mutation of the
    record stored under that id.

    The handlers read [audioFiles[audioId]].  The registry is modelled by
    its own properties, the ids [uuidv4()] produced: a lookup in the map
    is the lookup of the code for every id but the names [inherited]
    lists, none of which is a registry key. *)

Inductive status := uploaded | processing | completed | failed.

Record AudioData := {
  id : list N;
  filename : list N;
  size_ : Z;
  duration : Z;
  format : list N;
  uploadedAt : Z;                       (* the instant [new Date()] read *)
  status_ : status;
  filepath : list N;
  storedFilename : list N;
  outputPath : option (list N);         (* absent until set *)
  processingTime : option Q;
  completedAt : option Z;
  error : option (list N);
  failedAt : option Z
}.

(** [audioData.status = 'processing'] *)
Definition setProcessing (r : AudioData) : AudioData :=
  {| id := id r; filename := filename r; size_ := size_ r; duration := duration r;
     format := format r; uploadedAt := uploadedAt r; status_ := processing;
     filepath := filepath r; storedFilename := storedFilename r;
     outputPath := outputPath r; processingTime := processingTime r;
     completedAt := completedAt r; error := error r; failedAt := failedAt r |}.

(** The four assignments of the success branch. *)
Definition setCompleted (out : list N) (t : Q) (at_ : Z) (r : AudioData) : AudioData :=
  {| id := id r; filename := filename r; size_ := size_ r; duration := duration r;
     format := format r; uploadedAt := uploadedAt r; status_ := completed;
     filepath := filepath r; storedFilename := storedFilename r;
     outputPath := Some out; processingTime := Some t;
     completedAt := Some at_; error := error r; failedAt := failedAt r |}.

(** The three assignments of the [catch (processingError)] branch. *)
Definition setFailed (message : list N) (at_ : Z) (r : AudioData) : AudioData :=
  {| id := id r; filename := filename r; size_ := size_ r; duration := duration r;
     format := format r; uploadedAt := uploadedAt r; status_ := failed;
     filepath := filepath r; storedFilename := storedFilename r;
     outputPath := outputPath r; processingTime := processingTime r;
     completedAt := completedAt r; error := Some message; failedAt := Some at_ |}.

(** What a handler sends: [res.status(code).json(body)]. *)
Record metadata := {
  m_id : list N; m_filename : list N; m_duration : Z; m_size : Z;
  m_format : list N; m_status : status; m_uploadedAt : Z;
  m_completedAt : option Z; m_processingTime : option Q;
  m_failedAt : option Z; m_error : option (list N)
}.

Inductive body :=
| Failure (error : list N)                                  (* {success: false, error} *)
| Uploaded (data : metadata)
| Info (data : metadata)
| Processed (id : list N) (outputPath : list N) (processingTime : Q).
                                   (* data: {id, status: 'completed', outputPath, processingTime} *)

Record response := { statusCode : Z; json : body }.

(** An [Error] object as the handlers pass it to [next] or to a callback:
    whether it is a [multer.MulterError], and the properties the error
    middleware reads. *)
Record jsError := {
  e_multer : bool;
  e_code : option (list N);
  e_name : list N;
  e_message : list N;
  e_statusCode : option Z
}.

(** ** [controllers/uploadController.js] *)

Module UploadController.

Record file := {
  originalname : list N; mimetype : list N; fsize : Z;
  path : list N; fname : list N
}.

Definition getAudioDuration (filepath : list N) : Z := 0.

Definition mimeToFormat : list (list N * list N) :=
  [ (lit "audio/wav", lit "wav"); (lit "audio/x-wav", lit "wav");
    (lit "audio/mpeg", lit "mp3"); (lit "audio/mp3", lit "mp3");
    (lit "audio/webm", lit "webm"); (lit "audio/ogg", lit "ogg") ].

(** [mimeToFormat[mimetype] || 'unknown']: the lookup in the table's own
    properties, which is the code's for every mimetype that is not
    [inherited] (the six the filter accepts are not). *)
Definition getFormatFromMimetype (mimetype : list N) : list N :=
  prop_or (PythonService.getProp mimeToFormat mimetype) (lit "unknown").

(** [handleUpload]; [audioId] is what [uuidv4()] returned and [now] the
    instant of [new Date()]. *)
Definition handleUpload (audioId : list N) (now : Z) (reqFile : option file)
    (audioFiles : gmap (list N) AudioData) : gmap (list N) AudioData * response :=
  match reqFile with
  | None => (audioFiles, {| statusCode := 400; json := Failure (lit "Tidak ada file yang diunggah") |})
  | Some f =>
      let duration := getAudioDuration (path f) in
      let format := getFormatFromMimetype (mimetype f) in
      let audioMetadata :=
        {| m_id := audioId; m_filename := originalname f; m_duration := duration;
           m_size := fsize f; m_format := format; m_status := uploaded;
           m_uploadedAt := now; m_completedAt := None; m_processingTime := None;
           m_failedAt := None; m_error := None |} in
      (<[audioId :=
           {| id := audioId; filename := originalname f; size_ := fsize f;
              duration := duration; format := format; uploadedAt := now;
              status_ := uploaded; filepath := path f; storedFilename := fname f;
              outputPath := None; processingTime := None; completedAt := None;
              error := None; failedAt := None |}]> audioFiles,
       {| statusCode := 200; json := Uploaded audioMetadata |})
  end.

(** The [filename] callback of the multer disk storage; [timestamp] is
    the [Date.now()] it reads. *)
Definition storageFilename (timestamp : Z) (originalname : list N) : list N :=
  Number_toString timestamp ++ lit "-" ++ originalname.

Definition allowedMimeTypes : list (list N) :=
  [ lit "audio/wav"; lit "audio/mpeg"; lit "audio/mp3"; lit "audio/x-wav";
    lit "audio/webm"; lit "audio/ogg" ].

(** [fileFilter]: [cb(null, true)], or [cb(error, false)] with the error
    tagged [INVALID_FILE_TYPE]. *)
Definition fileFilter (mimetype : list N) : unit + jsError :=
  if existsb (eqstr mimetype) allowedMimeTypes then inl ()
  else inr {| e_multer := false; e_code := Some (lit "INVALID_FILE_TYPE");
              e_name := lit "Error";
              e_message := lit "Format file tidak didukung. Gunakan .wav, .mp3, atau .webm";
              e_statusCode := None |}.

End UploadController.

(** ** [controllers/infoController.js] *)

Module InfoController.

Definition getAudioInfo (audioFiles : gmap (list N) AudioData)
    (audioId : option (list N)) : response :=
  match audioId with
  | None | Some [] => {| statusCode := 400; json := Failure (lit "audioId diperlukan") |}
  | Some audioId =>
      match audioFiles !! audioId with
      | None => {| statusCode := 404; json := Failure (lit "Audio tidak ditemukan") |}
      | Some audioData =>
          {| statusCode := 200;
             json := Info
               {| m_id := audioId; m_filename := filename audioData;
                  m_duration := duration audioData; m_size := size_ audioData;
                  m_format := format audioData; m_status := status_ audioData;
                  m_uploadedAt := uploadedAt audioData;
                  m_completedAt :=
                    match status_ audioData with completed => completedAt audioData | _ => None end;
                  m_processingTime :=
                    match status_ audioData with completed => processingTime audioData | _ => None end;
                  m_failedAt :=
                    match status_ audioData with failed => failedAt audioData | _ => None end;
                  m_error :=
                    match status_ audioData with failed => error audioData | _ => None end |} |}
      end
  end.

End InfoController.

(** ** [controllers/processController.js]

    [processAudio] is an [async] function with two suspension points,
    [await fs.access(...)] and [await pythonService.processAudio(...)].
    Between suspension points a handler runs to completion, so one call is
    three segments, and concurrent calls are interleavings of segments
    over the one registry. *)

Module ProcessController.

Inductive task :=
| Entering (audioId : option (list N))
| AwaitAccess (audioId : list N) (startTime : Z) (filepath : list N)
| AwaitWorker (audioId : list N) (startTime : Z) (filepath : list N)
      (* the child process has been spawned on [filepath] *)
| Responded (res : response).

Definition reply (code : Z) (b : body) : task :=
  Responded {| statusCode := code; json := b |}.

(** From the entry to [await fs.access(audioData.filepath)]. *)
Definition enter (startTime : Z) (audioFiles : gmap (list N) AudioData)
    (audioId : option (list N)) : task :=
  match audioId with
  | None | Some [] => reply 400 (Failure (lit "audioId diperlukan"))
  | Some audioId =>
      match audioFiles !! audioId with
      | None => reply 404 (Failure (lit "Audio tidak ditemukan"))
      | Some audioData => AwaitAccess audioId startTime (filepath audioData)
      end
  end.

(** From the outcome of [fs.access] to the second [await]: the status
    write and the spawn, or the 404 of the [catch]. *)
Definition afterAccess (accessible : bool) (audioFiles : gmap (list N) AudioData)
    (audioId : list N) (startTime : Z) (filepath : list N)
    : gmap (list N) AudioData * task :=
  if accessible
  then (alter setProcessing audioId audioFiles, AwaitWorker audioId startTime filepath)
  else (audioFiles, reply 404 (Failure (lit "File audio tidak ditemukan di server"))).

(** From the settlement of the worker's promise to the response;
    [finished] is the [Date.now()] read after the [await], [stamped]
    the instant of [new Date()]. *)
Definition afterWorker (o : PythonService.outcome) (finished stamped : Z)
    (audioFiles : gmap (list N) AudioData) (audioId : list N) (startTime : Z)
    : gmap (list N) AudioData * task :=
  match o with
  | PythonService.Resolved outputPath =>
      let processingTime := Qmake (finished - startTime) 1000 in
      (alter (setCompleted outputPath processingTime stamped) audioId audioFiles,
       reply 200 (Processed audioId outputPath processingTime))
  | PythonService.Rejected message =>
      (alter (setFailed message stamped) audioId audioFiles,
       reply 500 (Failure (lit "Gagal memproses audio: " ++ message)))
  end.

(** What one request meets: the clock, the disk, and what the child
    process spawned on a path does (its events, the timer included). *)
Record world := {
  startTime : Z;
  onDisk : list N → bool;
  worker : list N → list PythonService.event;
  finished : Z;
  stamped : Z
}.

(** One call run on its own; the task returned is [Responded] with the
    response, or the suspended handler when the promise stays pending. *)
Definition processAudio (timeout : Z) (w : world)
    (audioFiles : gmap (list N) AudioData) (audioId : option (list N))
    : gmap (list N) AudioData * task :=
  match enter (startTime w) audioFiles audioId with
  | AwaitAccess a t p =>
      match afterAccess (onDisk w p) audioFiles a t p with
      | (audioFiles1, AwaitWorker a1 t1 p1) =>
          match PythonService.processAudio timeout (worker w p1) with
          | Some o => afterWorker o (finished w) (stamped w) audioFiles1 a1 t1
          | None => (audioFiles1, AwaitWorker a1 t1 p1)
          end
      | r => r
      end
  | t => (audioFiles, t)
  end.

(** The registry as it stands while the worker runs (after the second
    segment), for observers such as [GET /api/info/:id]. *)
Definition processAudio_started (w : world)
    (audioFiles : gmap (list N) AudioData) (audioId : option (list N))
    : gmap (list N) AudioData * task :=
  match enter (startTime w) audioFiles audioId with
  | AwaitAccess a t p => afterAccess (onDisk w p) audioFiles a t p
  | t => (audioFiles, t)
  end.

(** *** Concurrent calls

    The server is the registry and the handlers in flight; the event
    loop delivers one input at a time. *)
Inductive input :=
| Request (audioId : option (list N)) (startTime : Z)
| AccessSettled (i : nat) (accessible : bool)
| WorkerSettled (i : nat) (o : PythonService.outcome) (finished stamped : Z).

Definition deliver (sys : gmap (list N) AudioData * list task) (inp : input)
    : gmap (list N) AudioData * list task :=
  let '(audioFiles, tasks) := sys in
  match inp with
  | Request audioId startTime =>
      (audioFiles, tasks ++ [enter startTime audioFiles audioId])
  | AccessSettled i accessible =>
      match tasks !! i with
      | Some (AwaitAccess a t p) =>
          let '(audioFiles', tk) := afterAccess accessible audioFiles a t p in
          (audioFiles', <[i := tk]> tasks)
      | _ => sys
      end
  | WorkerSettled i o finished stamped =>
      match tasks !! i with
      | Some (AwaitWorker a t p) =>
          let '(audioFiles', tk) := afterWorker o finished stamped audioFiles a t in
          (audioFiles', <[i := tk]> tasks)
      | _ => sys
      end
  end.

Definition serve (sys : gmap (list N) AudioData * list task) (inps : list input)
    : gmap (list N) AudioData * list task :=
  fold_left deliver inps sys.

(** The id of the record a delivered input lets a handler write to. *)
Definition target (tasks : list task) (inp : input) : option (list N) :=
  match inp with
  | Request _ _ => None
  | AccessSettled i _ | WorkerSettled i _ _ _ =>
      match tasks !! i with
      | Some (AwaitAccess a _ _) | Some (AwaitWorker a _ _) => Some a
      | _ => None
      end
  end.

End ProcessController.

(** ** [middleware/errorHandler.js] *)

Module ErrorHandler.

Definition hasCode (err : jsError) (c : string) : bool :=
  match e_code err with Some k => eqstr k (lit c) | None => false end.

Definition failure (code : Z) (message : list N) : response :=
  {| statusCode := code; json := Failure message |}.

(** [errorHandler(err, req, res, next)]: the response it sends. *)
Definition errorHandler (err : jsError) : response :=
  if e_multer err then
    if hasCode err "LIMIT_FILE_SIZE" then failure 400 (lit "File terlalu besar. Maksimal 10MB")
    else if hasCode err "LIMIT_UNEXPECTED_FILE" then failure 400 (lit "Field file tidak sesuai")
    else failure 400 (e_message err)
  else if hasCode err "INVALID_FILE_TYPE" then failure 400 (e_message err)
  else if eqstr (e_name err) (lit "ValidationError") then failure 400 (e_message err)
  else if hasCode err "ENOENT" then failure 404 (lit "File tidak ditemukan")
  else if hasCode err "ENOSPC" then failure 507 (lit "Server kehabisan storage")
  else
    let statusCode := match e_statusCode err with Some 0 | None => 500 | Some c => c end in
    failure statusCode (str_or (e_message err) (lit "Terjadi kesalahan server")).

End ErrorHandler.

(** ** [controllers/downloadController.js] *)

Module DownloadController.

(** How a call of [downloadAudio] ends: a JSON response, the file piped
    to the response under the three headers, or [next(error)]. *)
Inductive result :=
| Sent (res : response)
| Streamed (contentType : list N) (contentLength : Z) (contentDisposition : list N)
           (file : list N)
| Passed (err : jsError).

(** The disk as one request finds it: whether [fs.access] resolves, and
    what [fs.stat] gives, the size or the error it rejects with. *)
Record world := {
  onDisk : list N → bool;
  statSize : list N → Z + jsError
}.

(** [res.setHeader] refuses a value holding a code unit outside tab,
    [0x20]-[0x7e] and [0x80]-[0xff] (Node's [checkInvalidHeaderChar]) and
    throws a [TypeError] with code [ERR_INVALID_CHAR]. *)
Definition invalidHeaderChar (c : N) : bool :=
  negb (N.eqb c 9 || (N.leb 32 c && N.leb c 126) || (N.leb 128 c && N.leb c 255)).

Definition checkInvalidHeaderChar (val : list N) : bool :=
  existsb invalidHeaderChar val.

Definition ERR_INVALID_CHAR (name : list N) : jsError :=
  {| e_multer := false; e_code := Some (lit "ERR_INVALID_CHAR");
     e_name := lit "TypeError";
     e_message := lit "Invalid character in header content [" ++ [34%N] ++ name
                  ++ [34%N] ++ lit "]";
     e_statusCode := None |}.

(** [downloadAudio]; [basename] and [extname] are Node's [path.basename]
    (with a suffix to strip) and [path.extname].  The headers are set
    inside the outer [try]: what [setHeader] throws goes to [next]. *)
Definition downloadAudio (basename : list N → list N → list N)
    (extname : list N → list N) (w : world)
    (audioFiles : gmap (list N) AudioData) (audioId : option (list N)) : result :=
  match audioId with
  | None | Some [] => Sent (ErrorHandler.failure 400 (lit "audioId diperlukan"))
  | Some audioId =>
      match audioFiles !! audioId with
      | None => Sent (ErrorHandler.failure 404 (lit "Audio tidak ditemukan"))
      | Some audioData =>
          match status_ audioData, outputPath audioData with
          | completed, Some (c :: p) =>
              let out := c :: p in
              if onDisk w out then
                match statSize w out with
                | inr err => Passed err
                | inl size =>
                    let originalFilename :=
                      basename (filename audioData) (extname (filename audioData)) in
                    let extension := extname out in
                    let downloadFilename := originalFilename ++ lit "-tuned" ++ extension in
                    let contentDisposition :=
                      lit "attachment; filename=" ++ [34%N] ++ downloadFilename ++ [34%N] in
                    if checkInvalidHeaderChar contentDisposition
                    then Passed (ERR_INVALID_CHAR (lit "Content-Disposition"))
                    else Streamed (lit "audio/wav") size contentDisposition out
                end
              else Sent (ErrorHandler.failure 404 (lit "File hasil tuning tidak ditemukan"))
          | _, _ => Sent (ErrorHandler.failure 400 (lit "Audio belum selesai diproses"))
          end
      end
  end.

(** The read stream's ['error'] listener: a 500 unless the headers have
    gone out. *)
Definition onStreamError (headersSent : bool) : option response :=
  if headersSent then None
  else Some (ErrorHandler.failure 500 (lit "Gagal mengunduh file")).

End DownloadController.

(** ** Interval timers of the event loop *)

Module Timers.

(** The handles given out so far and the intervals still running, each
    with the delay it runs with. *)
Record t := { nextId : nat; live : list (nat * Z) }.

Definition TIMEOUT_MAX : Z := 2 ^ 31 - 1.

(** The delay a timer runs with: Node replaces a delay that is not
    within [1] and [TIMEOUT_MAX] by [1]. *)
Definition after (delay : Z) : Z :=
  if (1 <=? delay) && (delay <=? TIMEOUT_MAX) then delay else 1.

Definition setInterval (delay : Z) (tm : t) : nat * t :=
  (nextId tm,
   {| nextId := S (nextId tm); live := (nextId tm, after delay) :: live tm |}).

Definition clearInterval (h : nat) (tm : t) : t :=
  {| nextId := nextId tm; live := filter (λ hd, hd.1 ≠ h) (live tm) |}.

(** Every interval still running was given out by [setInterval]. *)
Definition known (tm : t) : Prop :=
  Forall (λ hd : nat * Z, (hd.1 < nextId tm)%nat) (live tm).

End Timers.

(** ** The file system the sweepers work on

    One flat directory.  Other processes may remove entries while a sweep
    is suspended on a file-system call; the environment [env] of a sweep
    says before which call on which entry that happens. *)

Module Fs.

Inductive node :=
| RegularFile (mtime : Z)
| Directory (mtime : Z).

Inductive dirstate :=
| Missing
| Present (entries : gmap (list N) node)
| Inaccessible.                       (* [mkdir]/[readdir] reject *)

Inductive errno := ENOENT | EISDIR | EACCES.

Record stats := { isFile : bool; mtime_getTime : Z }.

(** The file-system calls a sweep makes on an entry: the loop's
    [fs.stat], the [fs.stat] inside the scheduler's [isFileOld], and
    [fs.unlink]. *)
Inductive point := BeforeStat | BeforeRecheck | BeforeUnlink.

Definition quiet : point → list N → bool := λ _ _, false.

(** The directory during a sweep, and the entries this process has
    unlinked so far (most recent first). *)
Record disk := { entries : gmap (list N) node; unlinked : list (list N) }.

Definition disturb (env : point → list N → bool) (p : point) (f : list N)
    (d : disk) : disk :=
  if env p f then {| entries := delete f (entries d); unlinked := unlinked d |}
  else d.

(** [fs.mkdir(directory, {recursive: true})]: the directory afterwards. *)
Definition mkdir (dir : dirstate) : gmap (list N) node + errno :=
  match dir with
  | Missing => inl ∅
  | Present m => inl m
  | Inaccessible => inr EACCES
  end.

(** [fs.readdir(directory)] *)
Definition readdir (m : gmap (list N) node) : list (list N) :=
  (map_to_list m).*1.

(** [fs.stat(filepath)] at suspension point [p]. *)
Definition stat (env : point → list N → bool) (p : point) (f : list N)
    (d : disk) : (stats + errno) * disk :=
  let d1 := disturb env p f d in
  match entries d1 !! f with
  | Some (RegularFile t) => (inl {| isFile := true; mtime_getTime := t |}, d1)
  | Some (Directory t) => (inl {| isFile := false; mtime_getTime := t |}, d1)
  | None => (inr ENOENT, d1)
  end.

(** [fs.unlink(filepath)] *)
Definition unlink (env : point → list N → bool) (f : list N)
    (d : disk) : (unit + errno) * disk :=
  let d1 := disturb env BeforeUnlink f d in
  match entries d1 !! f with
  | Some (RegularFile _) =>
      (inl (), {| entries := delete f (entries d1); unlinked := f :: unlinked d1 |})
  | Some (Directory _) => (inr EISDIR, d1)
  | None => (inr ENOENT, d1)
  end.

(** What a sweep leaves behind: the value returned ([None] when it
    throws), the directory, and the entries it unlinked itself. *)
Record swept := {
  returned : option Z;
  after : dirstate;
  removed : list (list N)
}.



(** Several directories by path. *)
Definition setDir (p : list N) (d : dirstate) (fs : list N → dirstate)
    : list N → dirstate :=
  λ q, if bool_decide (q = p) then d else fs q.

End Fs.

(** ** [src/services/fileManager.js] *)

Module FileManager.
Import Fs.

(** [deleteFile]: [true], [false] on [ENOENT], rethrows anything else. *)
Definition deleteFile (env : point → list N → bool) (filepath : list N)
    (d : disk) : (bool + errno) * disk :=
  match unlink env filepath d with
  | (inl _, d') => (inl true, d')
  | (inr ENOENT, d') => (inl false, d')
  | (inr e, d') => (inr e, d')
  end.

(** One iteration of [for (const file of files)]. *)
Definition visit (env : point → list N → bool) (now maxAge : Z)
    (acc : disk * Z) (file : list N) : disk * Z :=
  let '(d, deletedCount) := acc in
  match stat env BeforeStat file d with
  | (inr _, d1) => (d1, deletedCount)
  | (inl st, d1) =>
      if negb (isFile st) then (d1, deletedCount)
      else
        let fileAge := now - mtime_getTime st in
        if fileAge >? maxAge then
          match deleteFile env file d1 with
          | (inl _, d2) => (d2, deletedCount + 1)
          | (inr _, d2) => (d2, deletedCount)
          end
        else (d1, deletedCount)
  end.

(** [cleanupOldFiles(directory, maxAge = 5 * 60 * 1000)]; [now] is the
    single [Date.now()] read after [readdir]. *)
Definition cleanupOldFiles (env : point → list N → bool) (now : Z)
    (directory : dirstate) (maxAge : option Z) : swept :=
  let maxAge := default (5 * 60 * 1000) maxAge in
  match mkdir directory with
  | inr _ => {| returned := None; after := directory; removed := [] |}
  | inl m =>
      let files := readdir m in
      let '(d, deletedCount) :=
        fold_left (visit env now maxAge) files
                  ({| entries := m; unlinked := [] |}, 0) in
      {| returned := Some deletedCount; after := Present (entries d);
         removed := unlinked d |}
  end.

Record t := { uploadDir : list N; outputDir : list N }.

(** [generateUniqueFilename]: [timestamp] is [Date.now()], [uuid] what
    [uuidv4()] returned, [extname] Node's [path.extname]. *)
Definition generateUniqueFilename (extname : list N → list N) (timestamp : Z)
    (uuid : list N) (originalName : list N) : list N :=
  Number_toString timestamp ++ lit "-" ++ uuid ++ extname originalName.


(** The callback [startCleanupScheduler] hands to [setInterval]: the two
    sweeps inside one [try], the total it logs ([None] when the [catch]
    logs a failure instead). *)
Definition scheduledCleanup (this : t) (envU envO : point → list N → bool)
    (nowU nowO : Z) (fs : list N → dirstate) : option Z * (list N → dirstate) :=
  let r1 := cleanupOldFiles envU nowU (fs (uploadDir this)) None in
  match returned r1 with
  | None => (None, fs)
  | Some uploadDeleted =>
      let fs1 := setDir (uploadDir this) (after r1) fs in
      let r2 := cleanupOldFiles envO nowO (fs1 (outputDir this)) None in
      match returned r2 with
      | None => (None, fs1)
      | Some outputDeleted =>
          (Some (uploadDeleted + outputDeleted), setDir (outputDir this) (after r2) fs1)
      end
  end.

(** [startCleanupScheduler(interval = null)]; [envInterval] is
    [parseInt(process.env.CLEANUP_INTERVAL)], [None] for [NaN]. *)
Definition startCleanupScheduler (interval envInterval : option Z) (tm : Timers.t)
    : nat * Timers.t :=
  let cleanupInterval :=
    match interval with
    | Some 0 | None =>
        match envInterval with Some 0 | None => 5 * 60 * 1000 | Some e => e end
    | Some i => i
    end in
  Timers.setInterval cleanupInterval tm.

Definition stopCleanupScheduler (timer : option nat) (tm : Timers.t) : Timers.t :=
  match timer with Some h => Timers.clearInterval h tm | None => tm end.

End FileManager.

(** ** [utils/cleanup.js] *)

Module CleanupScheduler.
Import Fs.

Record t := { maxAge : Z; interval : Z }.

(** The constructor's [options.maxAge || 5 * 60 * 1000]. *)
Definition new (options_maxAge options_interval : option Z) : t :=
  {| maxAge := match options_maxAge with Some 0 | None => 5 * 60 * 1000 | Some a => a end;
     interval := match options_interval with Some 0 | None => 5 * 60 * 1000 | Some a => a end |}.

(** [isFileOld]; [now] is the [Date.now()] it reads. *)
Definition isFileOld (this : t) (env : point → list N → bool) (now : Z)
    (filepath : list N) (d : disk) : bool * disk :=
  match stat env BeforeRecheck filepath d with
  | (inl st, d1) =>
      let fileAge := now - mtime_getTime st in
      (fileAge >? maxAge this, d1)
  | (inr _, d1) => (false, d1)
  end.

(** [deleteFile]: [true] when unlinked, [false] on any error. *)
Definition deleteFile (env : point → list N → bool) (filepath : list N)
    (d : disk) : bool * disk :=
  match unlink env filepath d with
  | (inl _, d') => (true, d')
  | (inr ENOENT, d') => (false, d')
  | (inr _, d') => (false, d')
  end.

(** One iteration of [for (const file of files)]. *)
Definition visit (this : t) (env : point → list N → bool) (clock : list N → Z)
    (acc : disk * Z) (file : list N) : disk * Z :=
  let '(d, deletedCount) := acc in
  match stat env BeforeStat file d with
  | (inr _, d1) => (d1, deletedCount)
  | (inl st, d1) =>
      if negb (isFile st) then (d1, deletedCount)
      else
        let '(isOld, d2) := isFileOld this env (clock file) file d1 in
        if isOld then
          let '(deleted, d3) := deleteFile env file d2 in
          if deleted then (d3, deletedCount + 1) else (d3, deletedCount)
        else (d2, deletedCount)
  end.

(** [cleanupDirectory(directory)]; [clock file] is the [Date.now()] read
    while [file] is checked. *)
Definition cleanupDirectory (this : t) (env : point → list N → bool)
    (clock : list N → Z) (directory : dirstate) : swept :=
  match mkdir directory with
  | inr _ => {| returned := Some 0; after := directory; removed := [] |}
  | inl m =>
      let files := readdir m in
      let '(d, deletedCount) :=
        fold_left (visit this env clock) files
                  ({| entries := m; unlinked := [] |}, 0) in
      {| returned := Some deletedCount; after := Present (entries d);
         removed := unlinked d |}
  end.

(** The instance: the two settings above, the directories, the interval
    handle and the running flag. *)
Record instance := {
  config : t;
  uploadDir : list N;
  outputDir : list N;
  timer : option nat;
  isRunning : bool
}.

Record cleanupResult := {
  uploadDeleted : Z;
  outputDeleted : Z;
  totalDeleted : Z;
  timestamp : Z
}.

(** [runCleanup]: the result object, the directories afterwards, and the
    entries each of the two sweeps unlinked. *)
Definition runCleanup (this : instance) (envU envO : point → list N → bool)
    (clockU clockO : list N → Z) (stamp : Z) (fs : list N → dirstate)
    : cleanupResult * (list N → dirstate) * (list (list N) * list (list N)) :=
  let r1 := cleanupDirectory (config this) envU clockU (fs (uploadDir this)) in
  let fs1 := setDir (uploadDir this) (after r1) fs in
  let r2 := cleanupDirectory (config this) envO clockO (fs1 (outputDir this)) in
  let fs2 := setDir (outputDir this) (after r2) fs1 in
  let uploadDeleted := default 0 (returned r1) in
  let outputDeleted := default 0 (returned r2) in
  ({| uploadDeleted := uploadDeleted; outputDeleted := outputDeleted;
      totalDeleted := uploadDeleted + outputDeleted; timestamp := stamp |},
   fs2, (removed r1, removed r2)).

(** [start()]: the instance, the timers, and whether the immediate
    [runCleanup()] was launched. *)
Definition start (this : instance) (tm : Timers.t) : instance * Timers.t * bool :=
  if isRunning this then (this, tm, false)
  else
    let '(h, tm') := Timers.setInterval (interval (config this)) tm in
    ({| config := config this; uploadDir := uploadDir this; outputDir := outputDir this;
        timer := Some h; isRunning := true |}, tm', true).

Definition stop (this : instance) (tm : Timers.t) : instance * Timers.t :=
  if negb (isRunning this) then (this, tm)
  else
    match timer this with
    | Some h =>
        ({| config := config this; uploadDir := uploadDir this;
            outputDir := outputDir this; timer := None; isRunning := false |},
         Timers.clearInterval h tm)
    | None =>
        ({| config := config this; uploadDir := uploadDir this;
            outputDir := outputDir this; timer := None; isRunning := false |}, tm)
    end.

Definition getStatus (this : instance) : bool := isRunning this.

End CleanupScheduler.

(** ** Reading aids for the statements *)

Definition populated {A} (o : option A) : bool :=
  match o with Some _ => true | None => false end.

(** Exactly one of [outputPath] / [error] once the status is terminal,
    neither before. *)
Definition fields_consistent (r : AudioData) : bool :=
  match status_ r with
  | uploaded | processing => negb (populated (outputPath r)) && negb (populated (error r))
  | completed | failed => xorb (populated (outputPath r)) (populated (error r))
  end.

(** What [handleUpload] stores about the upload itself. *)
Definition uploadFields (r : AudioData)
    : list N * list N * Z * Z * list N * Z * list N * list N :=
  (id r, filename r, size_ r, duration r, format r, uploadedAt r, filepath r,
   storedFilename r).

(** *** Calls on a [CleanupScheduler] instance *)

Module Scheduling.

(** The instance the constructor leaves: no timer, not running. *)
Definition fresh (config : CleanupScheduler.t) (uploadDir outputDir : list N)
    : CleanupScheduler.instance :=
  {| CleanupScheduler.config := config; CleanupScheduler.uploadDir := uploadDir;
     CleanupScheduler.outputDir := outputDir; CleanupScheduler.timer := None;
     CleanupScheduler.isRunning := false |}.

Inductive call := Start | Stop.

Definition apply (s : CleanupScheduler.instance * Timers.t) (c : call)
    : CleanupScheduler.instance * Timers.t :=
  match c with
  | Start => (CleanupScheduler.start s.1 s.2).1
  | Stop => CleanupScheduler.stop s.1 s.2
  end.

End Scheduling.

(** *** Example data *)

Module Example.

Definition upload : UploadController.file :=
  {| UploadController.originalname := lit "take1.wav";
     UploadController.mimetype := lit "audio/wav";
     UploadController.fsize := 2048;
     UploadController.path := lit "uploads/1700000000000-take1.wav";
     UploadController.fname := lit "1700000000000-take1.wav" |}.

Definition audioId : list N := lit "3f2c9a7e-5b1d-4c8e-9f00-7a6b5c4d3e2f".

Definition audioFiles : gmap (list N) AudioData :=
  (UploadController.handleUpload audioId 1700000000000 (Some upload) ∅).1.

Definition record : AudioData :=
  {| id := audioId; filename := lit "take1.wav"; size_ := 2048; duration := 0;
     format := lit "wav"; uploadedAt := 1700000000000; status_ := uploaded;
     filepath := lit "uploads/1700000000000-take1.wav";
     storedFilename := lit "1700000000000-take1.wav";
     outputPath := None; processingTime := None; completedAt := None;
     error := None; failedAt := None |}.

Definition world (disk : bool) (evs : list PythonService.event) : ProcessController.world :=
  {| ProcessController.startTime := 1700000001000;
     ProcessController.onDisk := λ _, disk;
     ProcessController.worker := λ _, evs;
     ProcessController.finished := 1700000003500;
     ProcessController.stamped := 1700000003501 |}.

End Example.

(** *** What a sweep is expected to do *)

Module Sweep.
Import Fs.

(** A regular file whose age, [now] minus its modification time, is
    strictly greater than [maxAge]. *)
Definition expired (now maxAge : Z) (n : node) : bool :=
  match n with
  | RegularFile t => now - t >? maxAge
  | Directory _ => false
  end.

(** Interference limited to entries that are already absent when the
    sweep first looks at them. *)
Definition alreadyAbsent (gone : list N → bool) : point → list N → bool :=
  λ p f, match p with BeforeStat => gone f | _ => false end.

(** Interference in which the entries [racing] disappear between the age
    check and the unlink. *)
Definition lostBeforeUnlink (racing : list N → bool) : point → list N → bool :=
  λ p f, match p with BeforeUnlink => racing f | _ => false end.

(** An entry the sweep finds present, regular and expired. *)
Definition found (gone : list N → bool) (clock : list N → Z) (maxAge : Z)
    (kv : list N * node) : bool :=
  negb (gone kv.1) && expired (clock kv.1) maxAge kv.2.

(** A property of entries, asked of the name [f] in the directory [m]. *)
Definition holdsAt (q : list N * node → bool) (m : gmap (list N) node)
    (f : list N) : bool :=
  match m !! f with Some n => q (f, n) | None => false end.

Definition foundAt (gone : list N → bool) (clock : list N → Z) (maxAge : Z)
    (m : gmap (list N) node) (f : list N) : bool :=
  holdsAt (found gone clock maxAge) m f.

(** One iteration of a sweep's loop in terms of what happens to the
    entry: it is [gone] before the first [stat]; or it is found expired
    and is unlinked and counted, unless it is [racing], lost before the
    unlink, when [countLost] says whether it is counted all the same; or
    it is left alone. *)
Definition step (gone racing : list N → bool) (countLost : bool)
    (clock : list N → Z) (maxAge : Z) (acc : disk * Z) (f : list N) : disk * Z :=
  let '(d, c) := acc in
  if gone f then ({| entries := delete f (entries d); unlinked := unlinked d |}, c)
  else match entries d !! f with
       | Some n =>
           if expired (clock f) maxAge n then
             if racing f
             then ({| entries := delete f (entries d); unlinked := unlinked d |},
                   if countLost then c + 1 else c)
             else ({| entries := delete f (entries d); unlinked := f :: unlinked d |},
                   c + 1)
           else (d, c)
       | None => (d, c)
       end.

(** What the statements about undisturbed sweeps need of a sweeper: on an
    existing directory, when nothing interferes after the first [stat],
    it counts and unlinks the entries found expired and leaves the rest;
    on a missing directory it returns 0 and leaves an empty one. *)
Definition regular (now maxAge : Z) (sweep : (point → list N → bool) → dirstate → swept)
    : Prop :=
  (∀ env (m : gmap (list N) node),
     (∀ g, env BeforeRecheck g = false) → (∀ g, env BeforeUnlink g = false) →
     returned (sweep env (Present m))
     = Some (Z.of_nat (size (filter (λ kv : list N * node,
                               found (env BeforeStat) (λ _, now) maxAge kv) m)))
     ∧ after (sweep env (Present m))
       = Present (filter (λ kv : list N * node,
                    negb (env BeforeStat kv.1) && negb (expired now maxAge kv.2)) m)
     ∧ length (removed (sweep env (Present m)))
       = size (filter (λ kv : list N * node,
                         found (env BeforeStat) (λ _, now) maxAge kv) m)
     ∧ ∀ f, f ∈ removed (sweep env (Present m))
            ↔ ∃ n, m !! f = Some n ∧ found (env BeforeStat) (λ _, now) maxAge (f, n))
  ∧ sweep quiet Missing = {| returned := Some 0; after := Present ∅; removed := [] |}.

(** The directory of the specification's example. *)
Definition exampleDir (now : Z) : gmap (list N) node :=
  <[lit "old-file.txt" := RegularFile (now - 10 * 60 * 1000)]>
    (<[lit "new-file.txt" := RegularFile (now - 1 * 60 * 1000)]> ∅).

End Sweep.

(** * Properties *)

(** ** The worker invoker *)

Module PythonServiceFacts.
Import PythonService.

Lemma run_app timeout st evs1 evs2 :
  run timeout st (evs1 ++ evs2) = run timeout (run timeout st evs1) evs2.
Proof. unfold run. apply fold_left_app. Qed.

(** Data events only accumulate text. *)
Lemma run_data timeout pre : ∀ st,
  Forall (λ e, settles e = false) pre →
  run timeout st pre =
    {| outputPath := outputPath st ++ stdoutOf pre;
       errorOutput := errorOutput st ++ stderrOf pre;
       timerArmed := timerArmed st; processCompleted := processCompleted st;
       killed := killed st; calls := calls st |}.
Proof.
  induction pre as [|e pre IH]; intros st Hpre.
  - destruct st; simpl. by rewrite !app_nil_r.
  - inversion Hpre as [|? ? He Hrest]; subst.
    destruct e; try discriminate He; simpl; rewrite (IH _ Hrest); simpl;
      by rewrite <- ?app_assoc.
Qed.

Lemma dispatch_completed timeout st e :
  processCompleted st = true →
  processCompleted (dispatch timeout st e) = true
  ∧ calls (dispatch timeout st e) = calls st
  ∧ killed (dispatch timeout st e) = killed st.
Proof.
  intros Hc. destruct e; simpl; unfold onClose, onError, onTimeout; simpl;
    rewrite ?Hc; try done.
  destruct (timerArmed st); simpl; by rewrite ?Hc.
Qed.

Lemma run_completed timeout evs : ∀ st,
  processCompleted st = true →
  calls (run timeout st evs) = calls st ∧ killed (run timeout st evs) = killed st.
Proof.
  induction evs as [|e evs IH]; intros st Hc; [done|]. simpl.
  destruct (dispatch_completed timeout st e Hc) as (Hc' & Hcalls & Hk).
  destruct (IH _ Hc') as [-> ->]. done.
Qed.

Lemma dispatch_first timeout st e :
  processCompleted st = false → timerArmed st = true → settles e = true →
  processCompleted (dispatch timeout st e) = true
  ∧ calls (dispatch timeout st e) = calls st ++ [verdict timeout st e]
  ∧ killed (dispatch timeout st e) =
      match e with TimerFired => true | _ => killed st end.
Proof.
  intros Hc Ha He. destruct e; try discriminate He; simpl;
    unfold onClose, onError, onTimeout; simpl; rewrite ?Hc, ?Ha; simpl;
    rewrite ?Hc; done.
Qed.

(** The first of timeout, exit and spawn error decides the outcome;
    nothing that follows adds a second one. *)
Lemma first_wins timeout pre e post :
  Forall (λ e, settles e = false) pre → settles e = true →
  let st := run timeout init (pre ++ e :: post) in
  calls st = [verdict timeout (run timeout init pre) e]
  ∧ killed st = match e with TimerFired => true | _ => false end.
Proof.
  intros Hpre He. cbn zeta. rewrite run_app. simpl.
  assert (calls (run timeout init pre) = []
          ∧ killed (run timeout init pre) = false) as [Hcalls0 Hk0]
    by (by rewrite (run_data _ _ _ Hpre)).
  destruct (dispatch_first timeout (run timeout init pre) e) as (Hc & Hcalls & Hk);
    [by rewrite (run_data _ _ _ Hpre)..|done|].
  destruct (run_completed timeout post _ Hc) as [-> ->].
  rewrite Hcalls, Hk, Hcalls0, Hk0. split; [done|by destruct e].
Qed.

Lemma firstSettling_split evs pre e :
  firstSettling evs = Some (pre, e) →
  ∃ post, evs = pre ++ e :: post
          ∧ Forall (λ e, settles e = false) pre ∧ settles e = true.
Proof.
  revert pre e. induction evs as [|a evs IH]; intros pre e; simpl; [done|].
  destruct (settles a) eqn:Ha.
  - intros [= <- <-]. by exists evs.
  - destruct (firstSettling evs) as [[pre' s]|] eqn:Hf; [|done].
    intros [= <- <-]. destruct (IH _ _ eq_refl) as (post & -> & Hpre & Hs).
    exists post. split; [done|]. split; [by constructor|done].
Qed.

Lemma firstSettling_None evs :
  firstSettling evs = None → Forall (λ e, settles e = false) evs.
Proof.
  induction evs as [|a evs IH]; simpl; [constructor|].
  destruct (settles a) eqn:Ha; [done|].
  destruct (firstSettling evs) as [[? ?]|]; [done|]. intros _. by constructor; auto.
Qed.

Lemma calls_run timeout evs :
  calls (run timeout init evs) =
    match firstSettling evs with
    | Some (pre, e) => [verdict timeout (run timeout init pre) e]
    | None => []
    end.
Proof.
  destruct (firstSettling evs) as [[pre e]|] eqn:Hf.
  - destruct (firstSettling_split _ _ _ Hf) as (post & -> & Hpre & He).
    by destruct (first_wins timeout pre e post Hpre He) as [-> _].
  - by rewrite (run_data _ _ _ (firstSettling_None _ Hf)).
Qed.

(** An exit that comes first settles the promise with [closeOutcome] of
    the text accumulated so far. *)
Lemma close_first timeout pre code post :
  Forall (λ e, settles e = false) pre →
  processAudio timeout (pre ++ Close code :: post) =
    Some (match code with
          | Some 0 => match trim (stdoutOf pre) with
                      | [] => Rejected emptyOutputMessage
                      | p => Resolved p
                      end
          | _ => Rejected (parseErrorMessage (stderrOf pre))
          end).
Proof.
  intros Hpre. unfold processAudio, settled.
  destruct (first_wins timeout pre (Close code) post Hpre eq_refl) as [-> _].
  rewrite (run_data _ _ _ Hpre). simpl. unfold closeOutcome. simpl.
  destruct code as [[| |]|]; try done. by destruct (trim (stdoutOf pre)).
Qed.

Lemma str_or_nonempty a b : b ≠ [] → str_or a b ≠ [].
Proof. by destruct a. Qed.

(** Every rejection carries a non-empty message. *)
Lemma parseErrorMessage_nonempty errorOutput : parseErrorMessage errorOutput ≠ [].
Proof.
  unfold parseErrorMessage.
  destruct (errorMatch errorOutput) as [[ty g]|]; [|by apply str_or_nonempty].
  unfold prop_or, errorMessages. simpl.
  repeat (case_match; simplify_eq/=; try done).
  all: by apply str_or_nonempty.
Qed.

End PythonServiceFacts.

(** ** The error pattern *)

Module RegexFacts.
Import PythonService.

Lemma span_spec (p : N → bool) (s a b : list N) :
  span p s = (a, b) →
  s = a ++ b ∧ Forall (λ c, p c = true) a ∧ (∀ c b', b = c :: b' → p c = false).
Proof.
  revert a b. induction s as [|c s IH]; intros a b; simpl.
  - intros [= <- <-]. split; [done|]. split; [constructor|done].
  - destruct (p c) eqn:Hc.
    + destruct (span p s) as [a' b'] eqn:Hs. intros [= <- <-].
      destruct (IH _ _ eq_refl) as (-> & Ha & Hb).
      split; [done|]. split; [by constructor|done].
    + intros [= <- <-]. split; [done|]. split; [constructor|].
      intros c' b' [= <- <-]. done.
Qed.

Lemma span_all (p : N → bool) (a b : list N) :
  Forall (λ c, p c = true) a → span p (a ++ b) = (a ++ (span p b).1, (span p b).2).
Proof.
  induction 1 as [|c a Hc Ha IH]; simpl; [by destruct (span p b)|].
  by rewrite Hc, IH.
Qed.

Lemma stripPrefix_spec (p s r : list N) : stripPrefix p s = Some r ↔ s = p ++ r.
Proof.
  revert s. induction p as [|a p IH]; intros s; simpl.
  - destruct s; split; congruence.
  - destruct s as [|b s]; [done|]. destruct (N.eqb_spec a b) as [->|Hne].
    + rewrite IH. split; congruence.
    + split; [done|]. intros [= ? ?]. done.
Qed.

(** A match at the head of the text, with the second group running to
    the end of its line. *)
Lemma matchHere_Some (s errorType detail : list N) :
  matchHere s = Some (errorType, detail) →
  ∃ post, matchAt s [] errorType detail post
          ∧ ∀ c post', post = c :: post' → isLineTerminator c = true.
Proof.
  unfold matchHere.
  destruct (stripPrefix (lit "ERROR:") s) as [s1|] eqn:Hp; [|done].
  apply stripPrefix_spec in Hp as ->.
  destruct (span isCodeChar s1) as [ty rest] eqn:Hty.
  apply span_spec in Hty as (-> & Hty & _).
  destruct ty as [|c ty]; [done|]. destruct rest as [|[|colon] s2]; try done.
  repeat (destruct colon as [colon|colon|]; try done).
  destruct (span (λ c, negb (isLineTerminator c)) s2) as [d post] eqn:Hd.
  apply span_spec in Hd as (-> & Hd & Hpost).
  destruct d as [|c' d]; [done|]. intros [= <- <-]. exists post. split.
  - split; [done|]. split; [done|]. split; [done|]. split; [done|].
    eapply Forall_impl; [exact Hd|]. intros x Hx. by apply negb_true_iff.
  - intros x post' ->. specialize (Hpost x post' eq_refl). by apply negb_false_iff.
Qed.

(** Wherever a match of the pattern starts at the head of the text,
    [matchHere] finds one with the same first group. *)
Lemma matchHere_complete (s errorType detail post : list N) :
  matchAt s [] errorType detail post →
  ∃ detail', matchHere s = Some (errorType, detail').
Proof.
  intros (-> & Hne & Hty & Hdne & Hd). unfold matchHere. simpl app.
  rewrite (proj2 (stripPrefix_spec (lit "ERROR:") _ (errorType ++ 58%N :: detail ++ post)))
    by done.
  rewrite (span_all isCodeChar errorType _ Hty). simpl. rewrite app_nil_r.
  destruct errorType as [|c ty]; [done|].
  assert (Forall (λ c, negb (isLineTerminator c) = true) detail) as Hd'
    by (eapply Forall_impl; [exact Hd|]; intros x Hx; by apply negb_true_iff).
  rewrite (span_all _ detail post Hd').
  destruct detail as [|c' d]; [done|]. simpl. eauto.
Qed.

(** [errorMatch] returns nothing exactly when the text contains no match
    of the pattern. *)
Lemma errorMatch_None (s : list N) :
  errorMatch s = None →
  ∀ pre errorType detail post, ¬ matchAt s pre errorType detail post.
Proof.
  induction s as [|c s IH]; intros Hs pre ty d post Hm.
  - destruct Hm as (Hs' & _). destruct pre; discriminate Hs'.
  - simpl in Hs. destruct (matchHere (c :: s)) as [g|] eqn:Hh; [done|].
    destruct pre as [|c' pre].
    + destruct (matchHere_complete _ _ _ _ Hm) as (d' & Hd'). congruence.
    + destruct Hm as (Hs' & Hrest). injection Hs' as -> ->.
      apply (IH Hs pre ty d post). by split.
Qed.

(** What [errorMatch] returns is the leftmost match of the pattern. *)
Lemma errorMatch_Some (s errorType detail : list N) :
  errorMatch s = Some (errorType, detail) →
  ∃ pre post,
    matchAt s pre errorType detail post
    ∧ (∀ c post', post = c :: post' → isLineTerminator c = true)
    ∧ ∀ pre' errorType' detail' post',
        matchAt s pre' errorType' detail' post' → (length pre ≤ length pre')%nat.
Proof.
  induction s as [|c s IH].
  - simpl. unfold matchHere. simpl. done.
  - intros Hs. simpl in Hs. destruct (matchHere (c :: s)) as [g|] eqn:Hh.
    + injection Hs as ->. destruct (matchHere_Some _ _ _ Hh) as (post & Hm & Hpost).
      exists [], post. split; [done|]. split; [done|]. intros. simpl. lia.
    + destruct (IH Hs) as (pre & post & (-> & Hm) & Hpost & Hleft).
      exists (c :: pre), post. split; [by split|]. split; [done|].
      intros pre' ty' d' post' Hm'. destruct pre' as [|c' pre'].
      * destruct (matchHere_complete _ _ _ _ Hm') as (d'' & Hd''). congruence.
      * destruct Hm' as (Hs' & Hrest'). injection Hs' as -> Hs'.
        simpl. apply le_n_S. apply (Hleft pre' ty' d' post'). by split.
Qed.

End RegexFacts.

(** ** The registry and the process controller *)

Module ControllerFacts.
Import ProcessController.

Lemma alter_present (f : AudioData → AudioData) (a : list N) (r : AudioData)
    (audioFiles : gmap (list N) AudioData) :
  audioFiles !! a = Some r → alter f a audioFiles = <[a := f r]> audioFiles.
Proof.
  intros Hr. apply map_eq. intros k. rewrite lookup_alter, lookup_insert.
  repeat case_decide; simplify_eq; by rewrite ?Hr.
Qed.

(** A request for a registered id is decided by the disk alone up to
    the second suspension point. *)
Lemma started_spec (w : world) (audioFiles : gmap (list N) AudioData)
    (a : list N) (r : AudioData) :
  a ≠ [] → audioFiles !! a = Some r →
  processAudio_started w audioFiles (Some a) =
    afterAccess (onDisk w (filepath r)) audioFiles a (startTime w) (filepath r).
Proof.
  intros Ha Hr. unfold processAudio_started, enter. rewrite Hr.
  by destruct a.
Qed.

(** A call whose input file is on disk ends as the settlement of the
    worker's promise dictates. *)
Lemma processAudio_settled (timeout : Z) (w : world)
    (audioFiles : gmap (list N) AudioData) (a : list N) (r : AudioData)
    (o : PythonService.outcome) :
  a ≠ [] → audioFiles !! a = Some r → onDisk w (filepath r) = true →
  PythonService.processAudio timeout (worker w (filepath r)) = Some o →
  processAudio timeout w audioFiles (Some a) =
    afterWorker o (finished w) (stamped w)
                (<[a := setProcessing r]> audioFiles) a (startTime w).
Proof.
  intros Ha Hr Hd Ho. unfold processAudio, enter. rewrite Hr.
  destruct a as [|c a]; [done|]. unfold afterAccess. rewrite Hd, Ho.
  by rewrite (alter_present _ _ _ _ Hr).
Qed.

Lemma processAudio_resolved (timeout : Z) (w : world)
    (audioFiles : gmap (list N) AudioData) (a : list N) (r : AudioData)
    (out : list N) :
  a ≠ [] → audioFiles !! a = Some r → onDisk w (filepath r) = true →
  PythonService.processAudio timeout (worker w (filepath r))
    = Some (PythonService.Resolved out) →
  processAudio timeout w audioFiles (Some a) =
    (<[a := setCompleted out (Qmake (finished w - startTime w) 1000) (stamped w)
               (setProcessing r)]> audioFiles,
     reply 200 (Processed a out (Qmake (finished w - startTime w) 1000))).
Proof.
  intros Ha Hr Hd Ho. rewrite (processAudio_settled _ _ _ _ _ _ Ha Hr Hd Ho).
  unfold afterWorker.
  rewrite (alter_present _ _ (setProcessing r)) by apply lookup_insert_eq.
  by rewrite insert_insert_eq.
Qed.

Lemma processAudio_rejected (timeout : Z) (w : world)
    (audioFiles : gmap (list N) AudioData) (a : list N) (r : AudioData)
    (message : list N) :
  a ≠ [] → audioFiles !! a = Some r → onDisk w (filepath r) = true →
  PythonService.processAudio timeout (worker w (filepath r))
    = Some (PythonService.Rejected message) →
  processAudio timeout w audioFiles (Some a) =
    (<[a := setFailed message (stamped w) (setProcessing r)]> audioFiles,
     reply 500 (Failure (lit "Gagal memproses audio: " ++ message))).
Proof.
  intros Ha Hr Hd Ho. rewrite (processAudio_settled _ _ _ _ _ _ Ha Hr Hd Ho).
  unfold afterWorker.
  rewrite (alter_present _ _ (setProcessing r)) by apply lookup_insert_eq.
  by rewrite insert_insert_eq.
Qed.

(** A call whose input file is not on disk ends in the second segment
    and leaves the registry as it was. *)
Lemma processAudio_missing (timeout : Z) (w : world)
    (audioFiles : gmap (list N) AudioData) (a : list N) (r : AudioData) :
  a ≠ [] → audioFiles !! a = Some r → onDisk w (filepath r) = false →
  processAudio timeout w audioFiles (Some a)
  = (audioFiles, reply 404 (Failure (lit "File audio tidak ditemukan di server"))).
Proof.
  intros Ha Hr Hd. unfold processAudio, enter. rewrite Hr.
  destruct a; [done|]. unfold afterAccess. by rewrite Hd.
Qed.

End ControllerFacts.

Lemma audioFiles_record : Example.audioFiles !! Example.audioId = Some Example.record.
Proof. apply lookup_insert_eq. Qed.

(** *** Missing input *)

(** C1. For a registered job whose source file is not on disk,
    [processAudio] answers 404 "File audio tidak ditemukan di server"
    (the spec's [InputMissing]) from its second segment, without reaching
    the spawn (whatever the worker would do is irrelevant), and the
    registry, hence the job's record with its status and its absent
    [error]/[failedAt], is what it was. *)
Theorem missing_input_leaves_job_untouched (timeout : Z) (w : ProcessController.world)
    (audioFiles : gmap (list N) AudioData) (a : list N) (r : AudioData) :
  a ≠ [] → audioFiles !! a = Some r →
  ProcessController.onDisk w (filepath r) = false →
  let missing := ProcessController.reply 404
                   (Failure (lit "File audio tidak ditemukan di server")) in
  ProcessController.processAudio timeout w audioFiles (Some a) = (audioFiles, missing)
  ∧ ProcessController.processAudio_started w audioFiles (Some a) = (audioFiles, missing)
  ∧ (ProcessController.processAudio timeout w audioFiles (Some a)).1 !! a = Some r
  ∧ (status_ r = uploaded → error r = None → failedAt r = None →
     ∃ r', (ProcessController.processAudio timeout w audioFiles (Some a)).1 !! a = Some r'
           ∧ status_ r' = uploaded ∧ error r' = None ∧ failedAt r' = None).
Proof.
  intros Ha Hr Hd missing.
  pose proof (ControllerFacts.processAudio_missing timeout _ _ _ _ Ha Hr Hd) as Hrun.
  fold missing in Hrun.
  rewrite Hrun. simpl. repeat split; [|done|by eauto].
  rewrite (ControllerFacts.started_spec _ _ _ _ Ha Hr).
  unfold ProcessController.afterAccess. by rewrite Hd.
Qed.

Lemma missing_input_leaves_job_untouched_witness :
  ProcessController.processAudio 30000 (Example.world false []) Example.audioFiles
      (Some Example.audioId)
  = (Example.audioFiles,
     ProcessController.reply 404 (Failure (lit "File audio tidak ditemukan di server"))).
Proof.
  apply (missing_input_leaves_job_untouched 30000 (Example.world false [])
           Example.audioFiles Example.audioId Example.record);
    [done | apply audioFiles_record | reflexivity].
Defined.

(** *** Failure messages *)

(** C2, as the code has it.  When the child's exit is the first settling
    event and its code is not 0, the promise is rejected with a message
    computed from the accumulated stderr: on a match of
    [ERROR:<CODE>:<detail>] the code is looked up in the fixed table
    ([FILE_NOT_FOUND], [INVALID_ARGUMENTS], [PROCESSING_FAILED]), any
    other code giving "Processing error: <detail>", the detail trimmed;
    without a match (which is when stderr contains no text of that shape)
    the message is the trimmed stderr, or "Unknown Python processing
    error" when that is empty. *)
Theorem nonzero_exit_message (timeout : Z) (pre post : list PythonService.event)
    (code : option Z) :
  Forall (λ e, PythonService.settles e = false) pre → code ≠ Some 0 →
  let stderr := PythonService.stderrOf pre in
  ∃ message,
    PythonService.processAudio timeout (pre ++ PythonService.Close code :: post)
      = Some (PythonService.Rejected message)
    ∧ match PythonService.errorMatch stderr with
      | Some (errorType, detail) =>
          (errorType = lit "FILE_NOT_FOUND" → message = lit "Audio file not found")
          ∧ (errorType = lit "INVALID_ARGUMENTS" →
             message = lit "Invalid arguments provided to Python engine")
          ∧ (errorType = lit "PROCESSING_FAILED" →
             message = lit "Audio processing failed: " ++ trim detail)
          ∧ (errorType ≠ lit "FILE_NOT_FOUND" → errorType ≠ lit "INVALID_ARGUMENTS" →
             errorType ≠ lit "PROCESSING_FAILED" →
             message = lit "Processing error: " ++ trim detail)
      | None =>
          (trim stderr ≠ [] → message = trim stderr)
          ∧ (trim stderr = [] → message = lit "Unknown Python processing error")
      end
    ∧ (PythonService.errorMatch stderr = None
       ↔ ∀ pre errorType detail post,
           ¬ PythonService.matchAt stderr pre errorType detail post).
Proof.
  intros Hpre Hcode stderr. exists (PythonService.parseErrorMessage stderr).
  split; [|split].
  - rewrite (PythonServiceFacts.close_first _ _ _ _ Hpre).
    by destruct code as [[| |]|].
  - unfold PythonService.parseErrorMessage.
    destruct (PythonService.errorMatch stderr) as [[ty g]|].
    + unfold prop_or, PythonService.errorMessages, PythonService.getProp, eqstr.
      repeat split; intros; subst; repeat (case_bool_decide; simplify_eq/=; try done).
    + split; intros Ht; [by destruct (trim stderr)|by rewrite Ht].
  - split; [apply RegexFacts.errorMatch_None|]. intros Hnone.
    destruct (PythonService.errorMatch stderr) as [[ty d]|] eqn:Hm; [|done].
    destruct (RegexFacts.errorMatch_Some _ _ _ Hm) as (pre' & post' & Hat & _).
    by destruct (Hnone _ _ _ _ Hat).
Qed.

Lemma nonzero_exit_message_witness :
  ∃ message,
    PythonService.processAudio 30000
      ([PythonService.StderrData
          (lit "ERROR:FILE_NOT_FOUND:Input file not found: /tmp/x.wav")]
       ++ PythonService.Close (Some 1) :: [])
      = Some (PythonService.Rejected message)
    ∧ message = lit "Audio file not found".
Proof.
  destruct (nonzero_exit_message 30000
              [PythonService.StderrData
                 (lit "ERROR:FILE_NOT_FOUND:Input file not found: /tmp/x.wav")]
              [] (Some 1)) as (message & Hrun & Hmsg & _).
  - repeat constructor.
  - discriminate.
  - exists message. split; [exact Hrun|]. apply Hmsg. reflexivity.
Defined.

(** C2 as stated fails on the generic message: with nothing on stderr the
    rejection reads "Unknown Python processing error", not "Unknown
    processing error". *)
Lemma unknown_error_message_differs :
  PythonService.stderrOf [] = []
  ∧ PythonService.processAudio 30000 [PythonService.Close (Some 1)]
      = Some (PythonService.Rejected (lit "Unknown Python processing error"))
  ∧ PythonService.processAudio 30000 [PythonService.Close (Some 1)]
      ≠ Some (PythonService.Rejected (lit "Unknown processing error")).
Proof. repeat split. discriminate. Qed.

(** *** Timeout *)

(** C3. When the timer fires before the child has exited or failed to
    spawn, the child is sent SIGTERM, the promise is rejected with
    "Processing timeout: exceeded <timeout>ms", and the controller moves
    the job to [failed] with that message as its [error].  The timeout
    is an integer a Number holds exactly ([safeInteger]), so that the
    template literal prints its decimal digits. *)
Theorem timeout_first_fails_job (timeout : Z) (w : ProcessController.world)
    (audioFiles : gmap (list N) AudioData) (a : list N) (r : AudioData)
    (pre post : list PythonService.event) :
  safeInteger timeout →
  a ≠ [] → audioFiles !! a = Some r →
  ProcessController.onDisk w (filepath r) = true →
  ProcessController.worker w (filepath r) = pre ++ PythonService.TimerFired :: post →
  Forall (λ e, PythonService.settles e = false) pre →
  let message :=
    lit "Processing timeout: exceeded " ++ Number_toString timeout ++ lit "ms" in
  let r' := setFailed message (ProcessController.stamped w) (setProcessing r) in
  PythonService.killed
    (PythonService.run timeout PythonService.init
       (pre ++ PythonService.TimerFired :: post)) = true
  ∧ PythonService.processAudio timeout (pre ++ PythonService.TimerFired :: post)
      = Some (PythonService.Rejected message)
  ∧ ProcessController.processAudio timeout w audioFiles (Some a)
      = (<[a := r']> audioFiles,
         ProcessController.reply 500 (Failure (lit "Gagal memproses audio: " ++ message)))
  ∧ status_ r' = failed ∧ error r' = Some message ∧ outputPath r' = outputPath r.
Proof.
  intros _ Ha Hr Hd Hw Hpre message r'.
  destruct (PythonServiceFacts.first_wins timeout pre PythonService.TimerFired post
              Hpre eq_refl) as [Hcalls Hk].
  assert (PythonService.processAudio timeout (pre ++ PythonService.TimerFired :: post)
          = Some (PythonService.Rejected message)) as Hrun.
  { unfold PythonService.processAudio, PythonService.settled. by rewrite Hcalls. }
  repeat split; [done|done|].
  apply (ControllerFacts.processAudio_rejected _ _ _ _ _ _ Ha Hr Hd).
  by rewrite Hw.
Qed.

Lemma timeout_first_fails_job_witness :
  ProcessController.processAudio 100
    (Example.world true [PythonService.StdoutData (lit "working"); PythonService.TimerFired;
                         PythonService.Close None])
    Example.audioFiles (Some Example.audioId)
  = (<[Example.audioId :=
         setFailed (lit "Processing timeout: exceeded 100ms") 1700000003501
           (setProcessing Example.record)]> Example.audioFiles,
     ProcessController.reply 500
       (Failure (lit "Gagal memproses audio: Processing timeout: exceeded 100ms"))).
Proof.
  apply (timeout_first_fails_job 100
           (Example.world true [PythonService.StdoutData (lit "working");
                                PythonService.TimerFired; PythonService.Close None])
           Example.audioFiles Example.audioId Example.record
           [PythonService.StdoutData (lit "working")] [PythonService.Close None]);
    [reflexivity | done | apply audioFiles_record | reflexivity | reflexivity
    | repeat constructor].
Defined.

(** *** Exit with code 0 *)

(** C4. When the child's exit with code 0 is the first settling event:
    if the trimmed stdout is non-empty the promise resolves to exactly
    that text and the controller records it as [outputPath] with status
    [completed]; if it is empty the promise is rejected ("Python process
    succeeded but returned no output path") and the job becomes [failed],
    not [completed]. *)
Theorem zero_exit_outcome (timeout : Z) (w : ProcessController.world)
    (audioFiles : gmap (list N) AudioData) (a : list N) (r : AudioData)
    (pre post : list PythonService.event) :
  a ≠ [] → audioFiles !! a = Some r →
  ProcessController.onDisk w (filepath r) = true →
  ProcessController.worker w (filepath r)
    = pre ++ PythonService.Close (Some 0) :: post →
  Forall (λ e, PythonService.settles e = false) pre →
  let evs := pre ++ PythonService.Close (Some 0) :: post in
  let trimmedPath := trim (PythonService.stdoutOf pre) in
  let t := Qmake (ProcessController.finished w - ProcessController.startTime w) 1000 in
  let done := setCompleted trimmedPath t (ProcessController.stamped w) (setProcessing r) in
  let empty := lit "Python process succeeded but returned no output path" in
  let bad := setFailed empty (ProcessController.stamped w) (setProcessing r) in
  (trimmedPath ≠ [] →
     PythonService.processAudio timeout evs = Some (PythonService.Resolved trimmedPath)
     ∧ ProcessController.processAudio timeout w audioFiles (Some a)
         = (<[a := done]> audioFiles,
            ProcessController.reply 200 (Processed a trimmedPath t))
     ∧ status_ done = completed ∧ outputPath done = Some trimmedPath)
  ∧ (trimmedPath = [] →
     PythonService.processAudio timeout evs = Some (PythonService.Rejected empty)
     ∧ ProcessController.processAudio timeout w audioFiles (Some a)
         = (<[a := bad]> audioFiles,
            ProcessController.reply 500 (Failure (lit "Gagal memproses audio: " ++ empty)))
     ∧ status_ bad = failed ∧ status_ bad ≠ completed ∧ error bad = Some empty).
Proof.
  intros Ha Hr Hd Hw Hpre evs trimmedPath t done empty bad.
  pose proof (PythonServiceFacts.close_first timeout pre (Some 0) post Hpre) as Hrun.
  fold evs trimmedPath in Hrun. split; intros Ht.
  - assert (PythonService.processAudio timeout evs
            = Some (PythonService.Resolved trimmedPath)) as Hres
      by (rewrite Hrun; by destruct trimmedPath).
    repeat split; [done|].
    apply (ControllerFacts.processAudio_resolved _ _ _ _ _ _ Ha Hr Hd).
    by rewrite Hw.
  - rewrite Ht in Hrun. repeat split; [done| |done].
    apply (ControllerFacts.processAudio_rejected _ _ _ _ _ _ Ha Hr Hd).
    by rewrite Hw.
Qed.

Lemma zero_exit_outcome_witness :
  ProcessController.processAudio 30000
    (Example.world true [PythonService.StdoutData (lit "/outputs/abc-tuned.wav ");
                         PythonService.Close (Some 0)])
    Example.audioFiles (Some Example.audioId)
  = (<[Example.audioId :=
         setCompleted (lit "/outputs/abc-tuned.wav") (Qmake 2500 1000) 1700000003501
           (setProcessing Example.record)]> Example.audioFiles,
     ProcessController.reply 200
       (Processed Example.audioId (lit "/outputs/abc-tuned.wav") (Qmake 2500 1000))).
Proof.
  refine (proj1 (proj2 (proj1
    (zero_exit_outcome 30000
       (Example.world true [PythonService.StdoutData (lit "/outputs/abc-tuned.wav ");
                            PythonService.Close (Some 0)])
       Example.audioFiles Example.audioId Example.record
       [PythonService.StdoutData (lit "/outputs/abc-tuned.wav ")] []
       _ audioFiles_record eq_refl eq_refl _) _)));
    [done | repeat constructor | done].
Defined.

(** *** One outcome per invocation *)

(** C5. Whatever events an invocation receives, resolve/reject is called
    at most once; it is called exactly once as soon as a timeout, an exit
    or a spawn error has been delivered, with the verdict of the first of
    them; and once the completion flag is set, any further event (a late
    timer, a late exit, a late spawn error) leaves the settlement as it
    is. *)
Theorem first_resolution_wins (timeout : Z) (evs : list PythonService.event) :
  (length (PythonService.calls (PythonService.run timeout PythonService.init evs)) ≤ 1)%nat
  ∧ PythonService.calls (PythonService.run timeout PythonService.init evs)
    = match PythonService.firstSettling evs with
      | Some (pre, e) =>
          [PythonService.verdict timeout
             (PythonService.run timeout PythonService.init pre) e]
      | None => []
      end
  ∧ (∀ e more,
       PythonService.processCompleted
         (PythonService.run timeout PythonService.init evs) = true →
       PythonService.calls
         (PythonService.run timeout PythonService.init (evs ++ e :: more))
       = PythonService.calls (PythonService.run timeout PythonService.init evs)).
Proof.
  pose proof (PythonServiceFacts.calls_run timeout evs) as Hcalls.
  split; [|split; [done|]].
  - rewrite Hcalls. destruct (PythonService.firstSettling evs) as [[? ?]|]; simpl; lia.
  - intros e more Hc. rewrite PythonServiceFacts.run_app.
    by destruct (PythonServiceFacts.run_completed timeout (e :: more) _ Hc) as [-> _].
Qed.

Lemma first_resolution_wins_witness :
  PythonService.calls
    (PythonService.run 100 PythonService.init
       ([PythonService.StdoutData (lit "/outputs/a.wav"); PythonService.Close (Some 0)]
        ++ PythonService.TimerFired :: [PythonService.SpawnError (lit "late")]))
  = [PythonService.Resolved (lit "/outputs/a.wav")].
Proof.
  rewrite (proj2 (proj2 (first_resolution_wins 100
             [PythonService.StdoutData (lit "/outputs/a.wav");
              PythonService.Close (Some 0)]))
             PythonService.TimerFired [PythonService.SpawnError (lit "late")] eq_refl).
  reflexivity.
Defined.

(** *** The record's fields along one job's life *)

(** C6. A job created by [handleUpload] is stored with status [uploaded]
    and neither [outputPath] nor [error], and that is what
    [GET /api/info/:id] shows; after at most one [processAudio] call, at
    every point an observer can see the record (before the call, while
    the worker runs, after the response), exactly one of
    [outputPath]/[error] is set when the status is [completed] or
    [failed] and neither is set when it is [uploaded] or [processing]. *)
Theorem one_call_keeps_fields_consistent (audioFiles0 : gmap (list N) AudioData)
    (a : list N) (now : Z) (f : UploadController.file)
    (timeout : Z) (w : ProcessController.world) :
  a ≠ [] →
  let audioFiles := (UploadController.handleUpload a now (Some f) audioFiles0).1 in
  (∃ r, audioFiles !! a = Some r
        ∧ status_ r = uploaded ∧ outputPath r = None ∧ error r = None)
  ∧ (∃ m, InfoController.getAudioInfo audioFiles (Some a)
            = {| statusCode := 200; json := Info m |}
          ∧ m_status m = uploaded ∧ m_error m = None
          ∧ m_completedAt m = None ∧ m_processingTime m = None)
  ∧ (∀ r, audioFiles !! a = Some r → fields_consistent r = true)
  ∧ (∀ r, (ProcessController.processAudio_started w audioFiles (Some a)).1 !! a = Some r →
          fields_consistent r = true
          ∧ (status_ r = uploaded ∨ status_ r = processing))
  ∧ (∀ r, (ProcessController.processAudio timeout w audioFiles (Some a)).1 !! a = Some r →
          fields_consistent r = true
          ∧ (status_ r = completed → populated (outputPath r) = true ∧ error r = None)
          ∧ (status_ r = failed → outputPath r = None ∧ populated (error r) = true)).
Proof.
  intros Ha audioFiles.
  set (r0 := {| id := a; filename := UploadController.originalname f;
                size_ := UploadController.fsize f;
                duration := UploadController.getAudioDuration (UploadController.path f);
                format := UploadController.getFormatFromMimetype (UploadController.mimetype f);
                uploadedAt := now; status_ := uploaded;
                filepath := UploadController.path f;
                storedFilename := UploadController.fname f;
                outputPath := None; processingTime := None; completedAt := None;
                error := None; failedAt := None |}).
  assert (audioFiles !! a = Some r0) as Hr0 by apply lookup_insert_eq.
  split; [by exists r0|].
  split.
  { unfold InfoController.getAudioInfo. rewrite Hr0. destruct a; [done|]. by eexists. }
  split; [intros r Hr; by simplify_eq|].
  split.
  - intros r. rewrite (ControllerFacts.started_spec _ _ _ _ Ha Hr0).
    unfold ProcessController.afterAccess.
    destruct (ProcessController.onDisk w (filepath r0)); simpl.
    + rewrite (ControllerFacts.alter_present _ _ _ _ Hr0), lookup_insert_eq.
      intros [= <-]. auto.
    + rewrite Hr0. intros [= <-]. auto.
  - intros r.
    destruct (ProcessController.onDisk w (filepath r0)) eqn:Hd;
      [|rewrite (ControllerFacts.processAudio_missing timeout _ _ _ _ Ha Hr0 Hd);
        simpl; rewrite Hr0; intros [= <-]; by repeat split].
    destruct (PythonService.processAudio timeout
                (ProcessController.worker w (filepath r0))) as [[out|message]|] eqn:Ho.
    + rewrite (ControllerFacts.processAudio_resolved _ _ _ _ _ _ Ha Hr0 Hd Ho).
      simpl. rewrite lookup_insert_eq. intros [= <-]. by repeat split.
    + rewrite (ControllerFacts.processAudio_rejected _ _ _ _ _ _ Ha Hr0 Hd Ho).
      simpl. rewrite lookup_insert_eq. intros [= <-]. by repeat split.
    + unfold ProcessController.processAudio, ProcessController.enter. rewrite Hr0.
      destruct a; [done|]. unfold ProcessController.afterAccess.
      rewrite Hd. simpl in Ho |- *. rewrite Ho. simpl.
      rewrite (ControllerFacts.alter_present _ _ _ _ Hr0), lookup_insert_eq.
      intros [= <-]. by repeat split.
Qed.

Lemma one_call_keeps_fields_consistent_witness :
  fields_consistent
    (setFailed (lit "Audio processing failed: bad") 1700000003501
       (setProcessing Example.record)) = true.
Proof.
  destruct (one_call_keeps_fields_consistent ∅ Example.audioId 1700000000000
              Example.upload 30000
              (Example.world true
                 [PythonService.StderrData (lit "ERROR:PROCESSING_FAILED:bad");
                  PythonService.Close (Some 1)]))
    as (_ & _ & _ & _ & Hend); [done|].
  refine (proj1 (Hend _ _)). vm_compute. reflexivity.
Defined.

(** *** Concurrent calls on one registry *)

(** C9 as stated fails: nothing guards a record.  Two requests for the
    same id, both past [fs.access] before either worker settles, both
    write [processing] and are both suspended on a worker; then both
    write a terminal state, the second over the first, and the record
    ends [failed] with an [outputPath] and an [error]. *)
Lemma same_id_calls_both_run :
  let a := Example.audioId in
  let out := lit "/outputs/abc-tuned.wav" in
  let message := lit "Audio file not found" in
  let sys1 := ProcessController.serve (Example.audioFiles, [])
                [ProcessController.Request (Some a) 1000;
                 ProcessController.Request (Some a) 1001;
                 ProcessController.AccessSettled 0 true;
                 ProcessController.AccessSettled 1 true] in
  let sys2 := ProcessController.serve sys1
                [ProcessController.WorkerSettled 0 (PythonService.Resolved out) 3000 3001;
                 ProcessController.WorkerSettled 1 (PythonService.Rejected message) 3002 3003] in
  sys1.2 = [ProcessController.AwaitWorker a 1000 (filepath Example.record);
            ProcessController.AwaitWorker a 1001 (filepath Example.record)]
  ∧ sys1.1 !! a = Some (setProcessing (setProcessing Example.record))
  ∧ sys2.2 = [ProcessController.reply 200 (Processed a out (Qmake 2000 1000));
              ProcessController.reply 500
                (Failure (lit "Gagal memproses audio: Audio file not found"))]
  ∧ sys2.1 !! a = Some (setFailed message 3003
                          (setCompleted out (Qmake 2000 1000) 3001
                             (setProcessing Example.record)))
  ∧ (∃ r, sys2.1 !! a = Some r ∧ status_ r = failed
          ∧ outputPath r = Some out ∧ error r = Some message
          ∧ fields_consistent r = false).
Proof.
  cbn zeta. repeat split; try (vm_compute; reflexivity).
  eexists. split; [vm_compute; reflexivity|]. by repeat split.
Qed.

(** C9 as the code has it.  A handler's segment between two suspension
    points is one uninterrupted step of the event loop, and that is the
    only atomicity there is: (1) a delivered input changes no record but
    the one of the id its handler works on, so calls on distinct ids never
    contend; (2) the write of [processing] is not conditional on the
    current status; (3) two calls suspended on their workers for the same
    id both perform their terminal write, the later one on top of the
    earlier one. *)
Theorem calls_contend_only_on_their_own_id :
  (∀ (audioFiles : gmap (list N) AudioData) (tasks : list ProcessController.task)
     (inp : ProcessController.input) (b : list N),
     ProcessController.target tasks inp ≠ Some b →
     (ProcessController.deliver (audioFiles, tasks) inp).1 !! b = audioFiles !! b)
  ∧ (∀ (audioFiles : gmap (list N) AudioData) (tasks : list ProcessController.task)
       (k : nat) (a : list N) (t : Z) (p : list N) (r : AudioData),
       tasks !! k = Some (ProcessController.AwaitAccess a t p) →
       audioFiles !! a = Some r →
       ProcessController.deliver (audioFiles, tasks) (ProcessController.AccessSettled k true)
       = (<[a := setProcessing r]> audioFiles,
          <[k := ProcessController.AwaitWorker a t p]> tasks))
  ∧ (∀ (audioFiles : gmap (list N) AudioData) (tasks : list ProcessController.task)
       (i j : nat) (a : list N) (r : AudioData) (ti tj : Z) (pi pj : list N)
       (out message : list N) (f1 s1 f2 s2 : Z),
       i ≠ j →
       tasks !! i = Some (ProcessController.AwaitWorker a ti pi) →
       tasks !! j = Some (ProcessController.AwaitWorker a tj pj) →
       audioFiles !! a = Some r →
       (ProcessController.serve (audioFiles, tasks)
          [ProcessController.WorkerSettled i (PythonService.Resolved out) f1 s1;
           ProcessController.WorkerSettled j (PythonService.Rejected message) f2 s2]).1 !! a
       = Some (setFailed message s2 (setCompleted out (Qmake (f1 - ti) 1000) s1 r))
       ∧ (ProcessController.serve (audioFiles, tasks)
            [ProcessController.WorkerSettled j (PythonService.Rejected message) f2 s2;
             ProcessController.WorkerSettled i (PythonService.Resolved out) f1 s1]).1 !! a
         = Some (setCompleted out (Qmake (f1 - ti) 1000) s1 (setFailed message s2 r))).
Proof.
  split; [|split].
  - intros audioFiles tasks inp b Hb. destruct inp as [? ?|i ok|i o ? ?]; simpl in *; [done| |].
    + destruct (tasks !! i) as [[?|a ? ?|? ? ?|?]|]; try done.
      unfold ProcessController.afterAccess. destruct ok; simpl; [|done].
      apply lookup_alter_ne. congruence.
    + destruct (tasks !! i) as [[?|? ? ?|a ? ?|?]|]; try done.
      unfold ProcessController.afterWorker. destruct o; simpl;
        apply lookup_alter_ne; congruence.
  - intros audioFiles tasks k a t p r Hk Hr. simpl. rewrite Hk.
    unfold ProcessController.afterAccess.
    by rewrite (ControllerFacts.alter_present _ _ _ _ Hr).
  - intros audioFiles tasks i j a r ti tj pi pj out message f1 s1 f2 s2 Hij Hi Hj Hr.
    split; simpl.
    + rewrite Hi. simpl. rewrite list_lookup_insert_ne, Hj by done. simpl.
      by rewrite !lookup_alter_eq, Hr.
    + rewrite Hj. simpl. rewrite list_lookup_insert_ne, Hi by done. simpl.
      by rewrite !lookup_alter_eq, Hr.
Qed.

Lemma calls_contend_only_on_their_own_id_witness :
  (ProcessController.deliver
     (<[lit "other" := Example.record]> Example.audioFiles,
      [ProcessController.AwaitWorker Example.audioId 1000 (filepath Example.record)])
     (ProcessController.WorkerSettled 0 (PythonService.Rejected (lit "boom")) 2000 2001)).1
    !! lit "other"
  = (<[lit "other" := Example.record]> Example.audioFiles) !! lit "other".
Proof.
  apply (proj1 calls_contend_only_on_their_own_id
           (<[lit "other" := Example.record]> Example.audioFiles)
           [ProcessController.AwaitWorker Example.audioId 1000 (filepath Example.record)]
           (ProcessController.WorkerSettled 0 (PythonService.Rejected (lit "boom")) 2000 2001)
           (lit "other")).
  vm_compute. discriminate.
Defined.

(** ** The retention sweepers *)

Module SweepFacts.
Import Fs Sweep.

Lemma filter_ext_elem {A} (P Q : A → Prop) `{!∀ x, Decision (P x)}
    `{!∀ x, Decision (Q x)} (l : list A) :
  (∀ x, x ∈ l → (P x ↔ Q x)) → filter P l = filter Q l.
Proof.
  induction l as [|x l IH]; intros Hext; [done|].
  rewrite !filter_cons. rewrite IH by (intros y Hy; apply Hext; by right).
  destruct (decide (P x)) as [HP|HP], (decide (Q x)) as [HQ|HQ]; try done.
  - destruct HQ. apply Hext; [by left|done].
  - destruct HP. apply Hext; [by left|done].
Qed.

Lemma fold_left_pointwise {A B} (f g : A → B → A) (l : list B) (a : A) :
  (∀ a b, f a b = g a b) → fold_left f l a = fold_left g l a.
Proof.
  intros Hfg. revert a. induction l as [|b l IH]; intros a; [done|].
  simpl. by rewrite Hfg, IH.
Qed.

Lemma elem_of_rev {A} (x : A) (l : list A) : x ∈ rev l ↔ x ∈ l.
Proof. by rewrite !list_elem_of_In, <- in_rev. Qed.

Lemma size_filter_list (P : list N * node → Prop) `{!∀ x, Decision (P x)}
    (m : gmap (list N) node) :
  size (filter P m) = length (filter P (map_to_list m)).
Proof.
  rewrite <- length_map_to_list. apply Permutation_length.
  rewrite (map_filter_alt P m). apply map_to_list_to_map.
  apply NoDup_fmap_fst.
  - intros k x y [_ Hx]%list_elem_of_filter [_ Hy]%list_elem_of_filter.
    apply elem_of_map_to_list in Hx, Hy. congruence.
  - apply NoDup_filter, NoDup_map_to_list.
Qed.

(** Filtering the names [readdir] lists by what the directory holds under
    them is filtering the directory's entries. *)
Lemma filter_keys (q : list N * node → bool) (m : gmap (list N) node)
    (l : list (list N * node)) :
  (∀ k n, (k, n) ∈ l → m !! k = Some n) →
  filter (λ f, holdsAt q m f) l.*1 = (filter (λ kv, q kv) l).*1.
Proof.
  induction l as [|[k n] l IH]; intros Hl; [done|].
  assert (holdsAt q m k = q (k, n)) as Hk
    by (unfold holdsAt; by rewrite (Hl k n) by (by left)).
  rewrite fmap_cons, !filter_cons. simpl.
  rewrite IH by (intros k' n' H'; apply Hl; by right).
  destruct (decide (holdsAt q m k)) as [H1|H1], (decide (q (k, n))) as [H2|H2];
    try done; rewrite Hk in H1; contradiction.
Qed.

Lemma size_filter_readdir (q : list N * node → bool) (m : gmap (list N) node) :
  length (filter (λ f, holdsAt q m f) (readdir m)) = size (filter (λ kv, q kv) m).
Proof.
  unfold readdir. rewrite (filter_keys q m (map_to_list m)).
  - by rewrite length_fmap, size_filter_list.
  - intros k n. apply elem_of_map_to_list.
Qed.

Section loop.
Context (gone racing : list N → bool) (countLost : bool)
        (clock : list N → Z) (maxAge : Z).

Lemma foundAt_delete_ne (m : gmap (list N) node) (f g : list N) :
  f ≠ g → foundAt gone clock maxAge (delete f m) g = foundAt gone clock maxAge m g.
Proof. intros Hne. unfold foundAt, holdsAt. by rewrite lookup_delete_ne. Qed.

(** The loop over distinct names: what is counted, what is unlinked and
    what is left, in terms of the directory the loop started from. *)
Lemma step_loop (l : list (list N)) :
  NoDup l → ∀ (d : disk) (c : Z),
  ∃ d', fold_left (step gone racing countLost clock maxAge) l (d, c)
        = (d', c + Z.of_nat (length (filter
                   (λ f, foundAt gone clock maxAge (entries d) f
                         && (countLost || negb (racing f))) l)))
      ∧ unlinked d'
        = rev (filter (λ f, foundAt gone clock maxAge (entries d) f
                            && negb (racing f)) l) ++ unlinked d
      ∧ ∀ k, entries d' !! k
             = if decide (k ∈ l ∧ (gone k ∨ foundAt gone clock maxAge (entries d) k))
               then None else entries d !! k.
Proof.
  induction l as [|f l IH]; intros Hnd d c.
  { exists d. simpl. split; [f_equal; lia|]. done. }
  apply NoDup_cons in Hnd as [Hf Hnd].
  assert (∀ (b : list N → bool) (d1 : disk), entries d1 = delete f (entries d) →
            filter (λ g, foundAt gone clock maxAge (entries d1) g && b g) l
            = filter (λ g, foundAt gone clock maxAge (entries d) g && b g) l) as Hfilter.
  { intros b d1 Hd1. apply filter_ext_elem. intros g Hg. rewrite Hd1.
    rewrite foundAt_delete_ne; [done|]. intros ->. done. }
  assert (∀ (d1 : disk) k, entries d1 = delete f (entries d) →
            (gone f ∨ foundAt gone clock maxAge (entries d) f) →
            (if decide (k ∈ l ∧ (gone k ∨ foundAt gone clock maxAge (entries d1) k))
             then None else entries d1 !! k)
            = (if decide (k ∈ f :: l ∧ (gone k ∨ foundAt gone clock maxAge (entries d) k))
               then None else entries d !! k)) as Hlook.
  { intros d1 k Hd1 Hhit. rewrite Hd1. destruct (decide (k = f)) as [->|Hne].
    - rewrite lookup_delete_eq.
      rewrite (decide_True (P := f ∈ f :: l ∧ _)) by (split; [by left|done]).
      by destruct (decide _).
    - rewrite foundAt_delete_ne, lookup_delete_ne by done.
      apply decide_ext. rewrite elem_of_cons.
      split; [intros [? ?]; split; [by right|done]
             |intros [[?|?] ?]; [done|by split]]. }
  assert (¬ (gone f ∨ foundAt gone clock maxAge (entries d) f) →
          ∀ (d' : disk) k,
            (if decide (k ∈ l ∧ (gone k ∨ foundAt gone clock maxAge (entries d) k))
             then None else entries d !! k)
            = (if decide (k ∈ f :: l ∧ (gone k ∨ foundAt gone clock maxAge (entries d) k))
               then None else entries d !! k)) as Hskip.
  { intros Hno d' k. destruct (decide (k = f)) as [->|Hne].
    - rewrite decide_False by (intros [? ?]; done).
      by rewrite decide_False by (intros [_ ?]; done).
    - apply decide_ext. rewrite elem_of_cons.
      split; [intros [? ?]; split; [by right|done]
             |intros [[?|?] ?]; [done|by split]]. }
  cbn [fold_left]. rewrite !filter_cons. unfold step at 2.
  destruct (gone f) eqn:Hgone.
  - set (d1 := {| entries := delete f (entries d); unlinked := unlinked d |}).
    destruct (IH Hnd d1 c) as (d' & Hrun & Hlog & Hent).
    exists d'. rewrite Hrun, Hlog, !(Hfilter _ d1 eq_refl).
    assert (foundAt gone clock maxAge (entries d) f = false) as Hno.
    { unfold foundAt, holdsAt, found. destruct (entries d !! f); [|done].
      simpl. by rewrite Hgone. }
    rewrite Hno. simpl. split; [done|]. split; [done|].
    intros k. rewrite Hent. apply Hlook; [done|]. by left.
  - destruct (entries d !! f) as [n|] eqn:Hlookup;
      [destruct (expired (clock f) maxAge n) eqn:Hexp|].
    + assert (foundAt gone clock maxAge (entries d) f = true) as Hyes.
      { unfold foundAt, holdsAt, found. rewrite Hlookup. simpl. by rewrite Hgone, Hexp. }
      rewrite Hyes. destruct (racing f) eqn:Hrace.
      * set (d1 := {| entries := delete f (entries d); unlinked := unlinked d |}).
        destruct (IH Hnd d1 (if countLost then c + 1 else c))
          as (d' & Hrun & Hlog & Hent).
        exists d'. rewrite Hrun, Hlog, !(Hfilter _ d1 eq_refl).
        split; [|split; [done|]].
        -- destruct countLost; simpl; f_equal; lia.
        -- intros k. rewrite Hent. apply Hlook; [done|]. right. by rewrite Hyes.
      * set (d1 := {| entries := delete f (entries d); unlinked := f :: unlinked d |}).
        destruct (IH Hnd d1 (c + 1)) as (d' & Hrun & Hlog & Hent).
        exists d'. rewrite Hrun, Hlog, !(Hfilter _ d1 eq_refl).
        rewrite orb_true_r. simpl.
        split; [f_equal; lia|]. split; [by rewrite <- app_assoc|].
        intros k. rewrite Hent. apply Hlook; [done|]. right. by rewrite Hyes.
    + destruct (IH Hnd d c) as (d' & Hrun & Hlog & Hent).
      exists d'. rewrite Hrun, Hlog.
      assert (foundAt gone clock maxAge (entries d) f = false) as Hno.
      { unfold foundAt, holdsAt, found. rewrite Hlookup. simpl. by rewrite Hgone, Hexp. }
      rewrite Hno. simpl. split; [done|]. split; [done|].
      intros k. rewrite Hent. apply (Hskip); [|exact d].
      rewrite ?Hgone, Hno. intros [[]|[]].
    + destruct (IH Hnd d c) as (d' & Hrun & Hlog & Hent).
      exists d'. rewrite Hrun, Hlog.
      assert (foundAt gone clock maxAge (entries d) f = false) as Hno.
      { unfold foundAt, holdsAt. by rewrite Hlookup. }
      rewrite Hno. simpl. split; [done|]. split; [done|].
      intros k. rewrite Hent. apply (Hskip); [|exact d].
      rewrite ?Hgone, Hno. intros [[]|[]].
Qed.

(** A whole sweep over what [readdir] lists: the count it returns, the
    entries it leaves and the entries it unlinked. *)
Lemma sweep_readdir (m : gmap (list N) node) :
  ∃ d', fold_left (step gone racing countLost clock maxAge) (readdir m)
          ({| entries := m; unlinked := [] |}, 0)
        = (d', Z.of_nat (size (filter (λ kv : list N * node,
                 found gone clock maxAge kv && (countLost || negb (racing kv.1))) m)))
      ∧ entries d' = filter (λ kv : list N * node,
                 negb (gone kv.1) && negb (expired (clock kv.1) maxAge kv.2)) m
      ∧ length (unlinked d') = size (filter (λ kv : list N * node,
                 found gone clock maxAge kv && negb (racing kv.1)) m)
      ∧ ∀ f, f ∈ unlinked d'
             ↔ ∃ n, m !! f = Some n ∧ found gone clock maxAge (f, n) ∧ ¬ racing f.
Proof.
  destruct (step_loop (readdir m) (NoDup_fst_map_to_list m)
              {| entries := m; unlinked := [] |} 0) as (d' & Hrun & Hlog & Hent).
  simpl in Hrun, Hlog, Hent. rewrite app_nil_r in Hlog. exists d'.
  pose proof (size_filter_readdir
                (λ kv, found gone clock maxAge kv && (countLost || negb (racing kv.1))) m)
    as Hcount.
  pose proof (size_filter_readdir
                (λ kv, found gone clock maxAge kv && negb (racing kv.1)) m) as Hcount'.
  assert (∀ (b : list N → bool) f,
            holdsAt (λ kv, found gone clock maxAge kv && b kv.1) m f
            = foundAt gone clock maxAge m f && b f) as Hsame
    by (intros b f; unfold foundAt, holdsAt; by destruct (m !! f)).
  rewrite (filter_ext_elem _ (λ f, foundAt gone clock maxAge m f
                                   && (countLost || negb (racing f))))
    in Hcount by (intros f _; by rewrite (Hsame (λ f, countLost || negb (racing f)))).
  rewrite (filter_ext_elem _ (λ f, foundAt gone clock maxAge m f && negb (racing f)))
    in Hcount' by (intros f _; by rewrite (Hsame (λ f, negb (racing f)))).
  split; [by rewrite Hrun, Hcount|]. split; [|split].
  - apply map_eq. intros k. rewrite Hent. symmetry.
    destruct (m !! k) as [n|] eqn:Hk.
    + assert (k ∈ readdir m) as Hin.
      { unfold readdir. apply list_elem_of_fmap. exists (k, n).
        split; [done|]. by apply elem_of_map_to_list. }
      unfold foundAt, holdsAt, found. rewrite Hk. simpl.
      destruct (gone k) eqn:Hg, (expired (clock k) maxAge n) eqn:He; simpl.
      1-3: rewrite decide_True by auto; apply map_lookup_filter_None; right;
           intros n' Hn' Hkeep; simpl in Hkeep; rewrite Hk in Hn'; simplify_eq;
           by rewrite Hg, He in Hkeep.
      rewrite decide_False by (intros [_ [[]|[]]]).
      apply map_lookup_filter_Some. split; [done|]. simpl. by rewrite Hg, He.
    + assert (filter (λ kv : list N * node,
                negb (gone kv.1) && negb (expired (clock kv.1) maxAge kv.2)) m !! k = None)
        as -> by (apply map_lookup_filter_None; by left).
      by destruct (decide _).
  - by rewrite Hlog, length_rev, Hcount'.
  - intros f. rewrite Hlog, elem_of_rev, list_elem_of_filter.
    unfold foundAt, holdsAt, readdir. split.
    + intros [Hh _]. destruct (m !! f) as [n|]; [|done].
      exists n. apply andb_True in Hh as [? ?%negb_True]. done.
    + intros (n & Hf & Hfound & Hrace). rewrite Hf. split.
      * apply andb_True. split; [done|]. by apply negb_True.
      * apply list_elem_of_fmap. exists (f, n). split; [done|].
        by apply elem_of_map_to_list.
Qed.

End loop.

(** The two ways an iteration treats an entry it finds. *)
Lemma step_keep (gone racing : list N → bool) (countLost : bool) (clock : list N → Z)
    (maxAge : Z) (d : disk) (c : Z) (f : list N) (n : node) :
  gone f = false → entries d !! f = Some n → expired (clock f) maxAge n = false →
  step gone racing countLost clock maxAge (d, c) f = (d, c).
Proof. intros Hg Hf He. unfold step. by rewrite Hg, Hf, He. Qed.

Lemma step_unlink (gone racing : list N → bool) (countLost : bool) (clock : list N → Z)
    (maxAge : Z) (d : disk) (c : Z) (f : list N) (n : node) :
  gone f = false → racing f = false →
  entries d !! f = Some n → expired (clock f) maxAge n = true →
  step gone racing countLost clock maxAge (d, c) f
  = ({| entries := delete f (entries d); unlinked := f :: unlinked d |}, c + 1).
Proof. intros Hg Hr Hf He. unfold step. by rewrite Hg, Hf, He, Hr. Qed.

(** An iteration of the file manager's loop is a [step] that counts the
    entries lost before the unlink. *)
Lemma FileManager_visit_step (env : point → list N → bool) (now maxAge : Z)
    (acc : disk * Z) (f : list N) :
  FileManager.visit env now maxAge acc f
  = step (env BeforeStat) (env BeforeUnlink) true (λ _, now) maxAge acc f.
Proof.
  destruct acc as [d c].
  unfold FileManager.visit, step, stat, disturb.
  destruct (env BeforeStat f); simpl.
  { by rewrite lookup_delete_eq. }
  destruct (entries d !! f) as [[t|t]|] eqn:Hf; simpl; [|done..].
  destruct (now - t >? maxAge); [|done].
  unfold FileManager.deleteFile, unlink, disturb.
  destruct (env BeforeUnlink f); simpl; [by rewrite lookup_delete_eq|by rewrite Hf].
Qed.

(** An iteration of the scheduler's loop, which stats the file a second
    time, is a [step] that does not count them. *)
Lemma CleanupScheduler_visit_step (this : CleanupScheduler.t)
    (env : point → list N → bool) (clock : list N → Z) (acc : disk * Z) (f : list N) :
  (∀ g, env BeforeRecheck g = false) →
  CleanupScheduler.visit this env clock acc f
  = step (env BeforeStat) (env BeforeUnlink) false clock
         (CleanupScheduler.maxAge this) acc f.
Proof.
  intros Hrecheck. destruct acc as [d c].
  unfold CleanupScheduler.visit, step, stat, disturb.
  destruct (env BeforeStat f); simpl.
  { by rewrite lookup_delete_eq. }
  destruct (entries d !! f) as [[t|t]|] eqn:Hf; simpl; [|done..].
  unfold CleanupScheduler.isFileOld, stat, disturb. rewrite Hrecheck, Hf. simpl.
  destruct (clock f - t >? CleanupScheduler.maxAge this); [|done].
  unfold CleanupScheduler.deleteFile, unlink, disturb.
  destruct (env BeforeUnlink f); simpl; [by rewrite lookup_delete_eq|by rewrite Hf].
Qed.

(** The scheduler counts an entry exactly when its own [unlink] of it
    succeeded, whatever happens around it. *)
Lemma CleanupScheduler_visit_counts (this : CleanupScheduler.t)
    (env : point → list N → bool) (clock : list N → Z) (d : disk) (c : Z) (f : list N) :
  ∃ d', (CleanupScheduler.visit this env clock (d, c) f
         = (d', c + (Z.of_nat (length (unlinked d')) - Z.of_nat (length (unlinked d))))).
Proof.
  unfold CleanupScheduler.visit, CleanupScheduler.isFileOld,
    CleanupScheduler.deleteFile, stat, unlink, disturb.
  repeat (case_match; simplify_eq/=);
    eexists; apply pair_equal_spec; (split; [reflexivity|simpl; lia]).
Qed.

Lemma CleanupScheduler_loop_counts (this : CleanupScheduler.t)
    (env : point → list N → bool) (clock : list N → Z) (l : list (list N)) :
  ∀ (d : disk) (c : Z),
  ∃ d', fold_left (CleanupScheduler.visit this env clock) l (d, c)
        = (d', c + (Z.of_nat (length (unlinked d')) - Z.of_nat (length (unlinked d)))).
Proof.
  induction l as [|f l IH]; intros d c.
  - exists d. simpl. f_equal. lia.
  - cbn [fold_left].
    destruct (CleanupScheduler_visit_counts this env clock d c f) as (d1 & ->).
    destruct (IH d1 (c + (Z.of_nat (length (unlinked d1)) - Z.of_nat (length (unlinked d)))))
      as (d' & ->).
    exists d'. f_equal. lia.
Qed.

Lemma CleanupScheduler_counts_unlinks (this : CleanupScheduler.t)
    (env : point → list N → bool) (clock : list N → Z) (directory : dirstate) :
  returned (CleanupScheduler.cleanupDirectory this env clock directory)
  = Some (Z.of_nat (length (removed (CleanupScheduler.cleanupDirectory this env clock directory)))).
Proof.
  unfold CleanupScheduler.cleanupDirectory.
  destruct (mkdir directory) as [m|]; [|done].
  destruct (CleanupScheduler_loop_counts this env clock (readdir m)
              {| entries := m; unlinked := [] |} 0) as (d' & ->).
  simpl. f_equal. lia.
Qed.

Lemma filter_bool_ext (p q : list N * node → bool) (m : gmap (list N) node) :
  (∀ kv, p kv = q kv) → filter (λ kv, p kv) m = filter (λ kv, q kv) m.
Proof. intros Hpq. apply map_filter_ext. intros i x _. by rewrite Hpq. Qed.

(** The file manager's sweep of an existing directory, under any
    interference. *)
Lemma FileManager_sweep (env : point → list N → bool) (now maxAge : Z)
    (m : gmap (list N) node) :
  let r := FileManager.cleanupOldFiles env now (Present m) (Some maxAge) in
  returned r
  = Some (Z.of_nat (size (filter (λ kv : list N * node,
                            found (env BeforeStat) (λ _, now) maxAge kv) m)))
  ∧ after r = Present (filter (λ kv : list N * node,
                negb (env BeforeStat kv.1) && negb (expired now maxAge kv.2)) m)
  ∧ length (removed r)
    = size (filter (λ kv : list N * node,
              found (env BeforeStat) (λ _, now) maxAge kv
              && negb (env BeforeUnlink kv.1)) m)
  ∧ ∀ f, f ∈ removed r
         ↔ ∃ n, m !! f = Some n ∧ found (env BeforeStat) (λ _, now) maxAge (f, n)
                ∧ ¬ env BeforeUnlink f.
Proof.
  cbv zeta. unfold FileManager.cleanupOldFiles, mkdir. cbv zeta. cbn [default from_option].
  rewrite (fold_left_pointwise (FileManager.visit env now maxAge)
             (step (env BeforeStat) (env BeforeUnlink) true (λ _, now) maxAge))
    by (intros; apply FileManager_visit_step).
  destruct (sweep_readdir (env BeforeStat) (env BeforeUnlink) true (λ _, now) maxAge m)
    as (d' & -> & Hent & Hlen & Hmem).
  simpl. split; [|by rewrite Hent].
  do 2 f_equal. f_equal. apply filter_bool_ext. intros kv. simpl. apply andb_true_r.
Qed.

(** The scheduler's sweep of an existing directory, when nothing
    disappears between its two [stat]s of a file. *)
Lemma CleanupScheduler_sweep (this : CleanupScheduler.t) (env : point → list N → bool)
    (clock : list N → Z) (m : gmap (list N) node) :
  (∀ g, env BeforeRecheck g = false) →
  let r := CleanupScheduler.cleanupDirectory this env clock (Present m) in
  returned r
  = Some (Z.of_nat (size (filter (λ kv : list N * node,
              found (env BeforeStat) clock (CleanupScheduler.maxAge this) kv
              && negb (env BeforeUnlink kv.1)) m)))
  ∧ after r = Present (filter (λ kv : list N * node,
                negb (env BeforeStat kv.1)
                && negb (expired (clock kv.1) (CleanupScheduler.maxAge this) kv.2)) m)
  ∧ length (removed r)
    = size (filter (λ kv : list N * node,
              found (env BeforeStat) clock (CleanupScheduler.maxAge this) kv
              && negb (env BeforeUnlink kv.1)) m)
  ∧ ∀ f, f ∈ removed r
         ↔ ∃ n, m !! f = Some n
                ∧ found (env BeforeStat) clock (CleanupScheduler.maxAge this) (f, n)
                ∧ ¬ env BeforeUnlink f.
Proof.
  intros Hrecheck. cbv zeta. unfold CleanupScheduler.cleanupDirectory, mkdir. cbv zeta.
  rewrite (fold_left_pointwise (CleanupScheduler.visit this env clock)
             (step (env BeforeStat) (env BeforeUnlink) false clock
                   (CleanupScheduler.maxAge this)))
    by (intros; by apply CleanupScheduler_visit_step).
  destruct (sweep_readdir (env BeforeStat) (env BeforeUnlink) false clock
              (CleanupScheduler.maxAge this) m) as (d' & -> & Hent & Hlen & Hmem).
  simpl. by rewrite Hent.
Qed.

(** Sweeping a directory that does not exist creates it and finds
    nothing. *)
Lemma sweep_missing (this : CleanupScheduler.t) (env : point → list N → bool)
    (clock : list N → Z) (now : Z) (maxAge : option Z) :
  FileManager.cleanupOldFiles env now Missing maxAge
    = {| returned := Some 0; after := Present ∅; removed := [] |}
  ∧ CleanupScheduler.cleanupDirectory this env clock Missing
    = {| returned := Some 0; after := Present ∅; removed := [] |}.
Proof. split; reflexivity. Qed.

Lemma filter_filter_bool (p q : list N * node → bool) (m : gmap (list N) node) :
  filter (λ kv, p kv) (filter (λ kv, q kv) m) = filter (λ kv, q kv && p kv) m.
Proof.
  rewrite map_filter_filter. apply map_filter_ext. intros i x _. simpl.
  rewrite andb_True. tauto.
Qed.

Lemma FileManager_regular (now maxAge : Z) :
  regular now maxAge (λ env dir, FileManager.cleanupOldFiles env now dir (Some maxAge)).
Proof.
  split; [|reflexivity]. intros env m _ Hunlink.
  destruct (FileManager_sweep env now maxAge m) as (Hret & Hafter & Hlen & Hmem).
  assert (filter (λ kv : list N * node,
            found (env BeforeStat) (λ _, now) maxAge kv && negb (env BeforeUnlink kv.1)) m
          = filter (λ kv : list N * node,
              found (env BeforeStat) (λ _, now) maxAge kv) m) as Hsame
    by (apply filter_bool_ext; intros kv; by rewrite Hunlink, andb_true_r).
  split; [done|]. split; [done|]. split; [by rewrite Hlen, Hsame|].
  intros f. rewrite Hmem. split.
  - intros (n & ? & ? & _). by exists n.
  - intros (n & ? & ?). exists n. rewrite Hunlink.
    split; [done|split; [done|intros []]].
Qed.

Lemma CleanupScheduler_regular (now maxAge interval : Z) :
  regular now maxAge
    (λ env dir, CleanupScheduler.cleanupDirectory
                  {| CleanupScheduler.maxAge := maxAge;
                     CleanupScheduler.interval := interval |} env (λ _, now) dir).
Proof.
  split; [|reflexivity]. intros env m Hrecheck Hunlink.
  destruct (CleanupScheduler_sweep
              {| CleanupScheduler.maxAge := maxAge; CleanupScheduler.interval := interval |}
              env (λ _, now) m Hrecheck) as (Hret & Hafter & Hlen & Hmem).
  simpl in Hret, Hafter, Hlen, Hmem.
  assert (filter (λ kv : list N * node,
            found (env BeforeStat) (λ _, now) maxAge kv && negb (env BeforeUnlink kv.1)) m
          = filter (λ kv : list N * node,
              found (env BeforeStat) (λ _, now) maxAge kv) m) as Hsame
    by (apply filter_bool_ext; intros kv; by rewrite Hunlink, andb_true_r).
  split; [by rewrite Hret, Hsame|]. split; [done|]. split; [by rewrite Hlen, Hsame|].
  intros f. rewrite Hmem. split.
  - intros (n & ? & ? & _). by exists n.
  - intros (n & ? & ?). exists n. rewrite Hunlink.
    split; [done|split; [done|intros []]].
Qed.

(** An undisturbed sweep of an existing directory. *)
Lemma regular_quiet (now maxAge : Z)
    (sweep : (point → list N → bool) → dirstate → swept) (m : gmap (list N) node) :
  regular now maxAge sweep →
  returned (sweep quiet (Present m))
  = Some (Z.of_nat (size (filter (λ kv : list N * node, expired now maxAge kv.2) m)))
  ∧ after (sweep quiet (Present m))
    = Present (filter (λ kv : list N * node, negb (expired now maxAge kv.2)) m)
  ∧ length (removed (sweep quiet (Present m)))
    = size (filter (λ kv : list N * node, expired now maxAge kv.2) m)
  ∧ ∀ f, f ∈ removed (sweep quiet (Present m))
         ↔ ∃ n, m !! f = Some n ∧ expired now maxAge n.
Proof.
  intros [Hreg _].
  destruct (Hreg quiet m (λ _, eq_refl) (λ _, eq_refl)) as (Hret & Hafter & Hlen & Hmem).
  done.
Qed.

(** Entries already absent are passed over: the sweep does what an
    undisturbed sweep of the directory without them does. *)
Lemma regular_alreadyAbsent (now maxAge : Z)
    (sweep : (point → list N → bool) → dirstate → swept) (m : gmap (list N) node)
    (gone : list N → bool) :
  regular now maxAge sweep →
  let listed := filter (λ kv : list N * node, negb (gone kv.1)) m in
  returned (sweep (alreadyAbsent gone) (Present m))
  = returned (sweep quiet (Present listed))
  ∧ after (sweep (alreadyAbsent gone) (Present m))
    = after (sweep quiet (Present listed)).
Proof.
  intros Hreg listed.
  destruct (regular_quiet now maxAge sweep listed Hreg) as (-> & -> & _).
  destruct Hreg as [Hreg _].
  destruct (Hreg (alreadyAbsent gone) m (λ _, eq_refl) (λ _, eq_refl))
    as (-> & -> & _).
  unfold listed. by rewrite !filter_filter_bool.
Qed.

(** A second undisturbed sweep at the same instant finds nothing left to
    delete. *)
Lemma regular_twice (now maxAge : Z)
    (sweep : (point → list N → bool) → dirstate → swept) (m : gmap (list N) node) :
  regular now maxAge sweep →
  let first := sweep quiet (Present m) in
  let second := sweep quiet (after first) in
  returned second = Some 0 ∧ removed second = [] ∧ after second = after first.
Proof.
  intros Hreg first second.
  destruct (regular_quiet now maxAge sweep m Hreg) as (_ & Hafter & _).
  fold first in Hafter. unfold second. rewrite Hafter.
  destruct (regular_quiet now maxAge sweep
              (filter (λ kv : list N * node, negb (expired now maxAge kv.2)) m) Hreg)
    as (Hret2 & Hafter2 & Hlen2 & _).
  assert (filter (λ kv : list N * node, expired now maxAge kv.2)
            (filter (λ kv : list N * node, negb (expired now maxAge kv.2)) m) = ∅) as Hnone.
  { rewrite filter_filter_bool. apply map_empty. intros k.
    apply map_lookup_filter_None. right. intros n _. simpl.
    destruct (expired now maxAge n); simpl; by intros []. }
  rewrite Hnone, map_size_empty in Hret2, Hlen2.
  split; [done|]. split; [by apply nil_length_inv|].
  rewrite Hafter2. f_equal. rewrite filter_filter_bool.
  apply filter_bool_ext. intros kv. apply andb_diag.
Qed.

End SweepFacts.

(** *** What a sweep deletes *)

(** C7 fails on the code for [FileManager.cleanupOldFiles].  The
    specification's example directory (files 10 minutes and 1 minute
    old, [maxAge = 300000]), where another process removes the older
    file after the sweep's [fs.stat] of it and before its [fs.unlink]:
    the file is already absent, [deleteFile] returns [false], the sweep
    deletes nothing, and yet it returns 1, which is not the number of
    files it deleted.  [CleanupScheduler.cleanupDirectory] on the same
    input returns 0. *)
Lemma sweep_counts_a_file_it_did_not_delete :
  let now := 1700000600000 in
  let dir := Fs.Present (Sweep.exampleDir now) in
  let env := Sweep.lostBeforeUnlink (eqstr (lit "old-file.txt")) in
  let kept := Fs.Present {[ lit "new-file.txt" := Fs.RegularFile (now - 1 * 60 * 1000) ]} in
  FileManager.cleanupOldFiles env now dir (Some 300000)
  = {| Fs.returned := Some 1; Fs.after := kept; Fs.removed := [] |}
  ∧ CleanupScheduler.cleanupDirectory (CleanupScheduler.new (Some 300000) None)
      env (λ _, now) dir
    = {| Fs.returned := Some 0; Fs.after := kept; Fs.removed := [] |}.
Proof. cbv zeta. split; vm_compute; reflexivity. Qed.

(** X23. What the sweepers do when nothing interferes after their first
    look at an entry.  Both sweepers, on every directory: of the entries
    directly inside it, an undisturbed sweep unlinks exactly the regular
    files whose age [now - mtime] is strictly greater than [maxAge],
    leaves everything else (subdirectories included), and returns the
    number of files it unlinked; a missing directory is created and
    gives 0; an entry that has disappeared before the sweep's first
    [fs.stat] of it is passed over, the sweep returning and leaving what
    an undisturbed sweep of the directory without that entry would; on
    the specification's example (files 10 minutes and 1 minute old,
    [maxAge = 300000]) exactly the older file is deleted and the count is
    1; and the scheduler's count is the number of files it unlinked under
    any interference whatever. *)
Theorem sweep_deletes_expired_files (now maxAge interval : Z)
    (m : gmap (list N) Fs.node) (gone : list N → bool) :
  Forall (λ sweep : (Fs.point → list N → bool) → Fs.dirstate → Fs.swept,
      let r := sweep Fs.quiet (Fs.Present m) in
      let listed := filter (λ kv : list N * Fs.node, negb (gone kv.1)) m in
      Fs.returned r
      = Some (Z.of_nat (size (filter (λ kv : list N * Fs.node,
                                Sweep.expired now maxAge kv.2) m)))
      ∧ Fs.after r
        = Fs.Present (filter (λ kv : list N * Fs.node,
                        negb (Sweep.expired now maxAge kv.2)) m)
      ∧ Z.of_nat (length (Fs.removed r)) = default 0 (Fs.returned r)
      ∧ (∀ f, f ∈ Fs.removed r ↔ ∃ n, m !! f = Some n ∧ Sweep.expired now maxAge n)
      ∧ sweep Fs.quiet Fs.Missing
        = {| Fs.returned := Some 0; Fs.after := Fs.Present ∅; Fs.removed := [] |}
      ∧ Fs.returned (sweep (Sweep.alreadyAbsent gone) (Fs.Present m))
        = Fs.returned (sweep Fs.quiet (Fs.Present listed))
      ∧ Fs.after (sweep (Sweep.alreadyAbsent gone) (Fs.Present m))
        = Fs.after (sweep Fs.quiet (Fs.Present listed)))
    [ (λ env dir, FileManager.cleanupOldFiles env now dir (Some maxAge));
      (λ env dir, CleanupScheduler.cleanupDirectory
                    {| CleanupScheduler.maxAge := maxAge;
                       CleanupScheduler.interval := interval |} env (λ _, now) dir) ]
  ∧ (let kept := Fs.Present {[ lit "new-file.txt" := Fs.RegularFile (now - 1 * 60 * 1000) ]} in
     FileManager.cleanupOldFiles Fs.quiet now (Fs.Present (Sweep.exampleDir now)) (Some 300000)
     = {| Fs.returned := Some 1; Fs.after := kept; Fs.removed := [lit "old-file.txt"] |}
     ∧ CleanupScheduler.cleanupDirectory (CleanupScheduler.new (Some 300000) None)
         Fs.quiet (λ _, now) (Fs.Present (Sweep.exampleDir now))
       = {| Fs.returned := Some 1; Fs.after := kept; Fs.removed := [lit "old-file.txt"] |})
  ∧ (∀ (this : CleanupScheduler.t) (env : Fs.point → list N → bool)
       (clock : list N → Z) (dir : Fs.dirstate),
       Fs.returned (CleanupScheduler.cleanupDirectory this env clock dir)
       = Some (Z.of_nat (length (Fs.removed
                                   (CleanupScheduler.cleanupDirectory this env clock dir))))).
Proof.
  assert (∀ sweep, Sweep.regular now maxAge sweep →
     let r := sweep Fs.quiet (Fs.Present m) in
     let listed := filter (λ kv : list N * Fs.node, negb (gone kv.1)) m in
     Fs.returned r
     = Some (Z.of_nat (size (filter (λ kv : list N * Fs.node,
                               Sweep.expired now maxAge kv.2) m)))
     ∧ Fs.after r
       = Fs.Present (filter (λ kv : list N * Fs.node,
                       negb (Sweep.expired now maxAge kv.2)) m)
     ∧ Z.of_nat (length (Fs.removed r)) = default 0 (Fs.returned r)
     ∧ (∀ f, f ∈ Fs.removed r ↔ ∃ n, m !! f = Some n ∧ Sweep.expired now maxAge n)
     ∧ sweep Fs.quiet Fs.Missing
       = {| Fs.returned := Some 0; Fs.after := Fs.Present ∅; Fs.removed := [] |}
     ∧ Fs.returned (sweep (Sweep.alreadyAbsent gone) (Fs.Present m))
       = Fs.returned (sweep Fs.quiet (Fs.Present listed))
     ∧ Fs.after (sweep (Sweep.alreadyAbsent gone) (Fs.Present m))
       = Fs.after (sweep Fs.quiet (Fs.Present listed))) as Hall.
  { intros sweep Hreg r listed.
    destruct (SweepFacts.regular_quiet now maxAge sweep m Hreg) as (Hret & Hafter & Hlen & Hmem).
    destruct (SweepFacts.regular_alreadyAbsent now maxAge sweep m gone Hreg) as [Hret' Hafter'].
    fold r in Hret, Hafter, Hlen, Hmem. fold listed in Hret', Hafter'.
    split; [done|]. split; [done|]. split; [by rewrite Hret, Hlen|].
    split; [done|]. split; [apply Hreg|]. done. }
  split; [|split; [|apply SweepFacts.CleanupScheduler_counts_unlinks]].
  - constructor; [|constructor; [|constructor]].
    + exact (Hall _ (SweepFacts.FileManager_regular now maxAge)).
    + exact (Hall _ (SweepFacts.CleanupScheduler_regular now maxAge interval)).
  - assert (Sweep.expired now 300000 (Fs.RegularFile (now - 10 * 60 * 1000)) = true)
      as Hold by (unfold Sweep.expired; lia).
    assert (Sweep.expired now 300000 (Fs.RegularFile (now - 1 * 60 * 1000)) = false)
      as Hnew by (unfold Sweep.expired; lia).
    assert (lit "old-file.txt" ≠ lit "new-file.txt") as Hne by (vm_compute; discriminate).
    assert (Sweep.exampleDir now !! lit "new-file.txt"
            = Some (Fs.RegularFile (now - 1 * 60 * 1000))) as Hlnew
      by (unfold Sweep.exampleDir; rewrite lookup_insert_ne by done; apply lookup_insert_eq).
    assert (Sweep.exampleDir now !! lit "old-file.txt"
            = Some (Fs.RegularFile (now - 10 * 60 * 1000))) as Hlold
      by apply lookup_insert_eq.
    assert (delete (lit "old-file.txt") (Sweep.exampleDir now)
            = {[ lit "new-file.txt" := Fs.RegularFile (now - 1 * 60 * 1000) ]}) as Hleft.
    { unfold Sweep.exampleDir. rewrite delete_insert_eq, delete_insert_ne by done.
      by rewrite delete_empty, insert_empty. }
    unfold FileManager.cleanupOldFiles, CleanupScheduler.cleanupDirectory, Fs.mkdir.
    cbv zeta.
    replace (Fs.readdir (Sweep.exampleDir now))
      with [lit "new-file.txt"; lit "old-file.txt"] by (vm_compute; reflexivity).
    change (default (5 * 60 * 1000) (Some 300000)) with 300000.
    rewrite (SweepFacts.fold_left_pointwise (FileManager.visit _ _ _)
               (Sweep.step (Fs.quiet Fs.BeforeStat) (Fs.quiet Fs.BeforeUnlink) true
                  (λ _, now) 300000))
      by (intros; apply SweepFacts.FileManager_visit_step).
    rewrite (SweepFacts.fold_left_pointwise (CleanupScheduler.visit _ _ _)
               (Sweep.step (Fs.quiet Fs.BeforeStat) (Fs.quiet Fs.BeforeUnlink) false
                  (λ _, now) 300000))
      by (intros; by apply SweepFacts.CleanupScheduler_visit_step).
    cbn [fold_left].
    rewrite !(SweepFacts.step_keep _ _ _ _ _
                {| Fs.entries := Sweep.exampleDir now; Fs.unlinked := [] |}
                _ _ _ eq_refl Hlnew Hnew).
    rewrite !(SweepFacts.step_unlink _ _ _ _ _
                {| Fs.entries := Sweep.exampleDir now; Fs.unlinked := [] |}
                _ _ _ eq_refl eq_refl Hlold Hold).
    cbn [Fs.entries Fs.unlinked]. rewrite Hleft. done.
Qed.

(** *** Sweeping twice *)

(** C8. For both sweepers and every directory, existing or missing: of two
    undisturbed sweeps in succession at the same instant with the same
    [maxAge], the second unlinks nothing, returns 0 and leaves the
    directory as the first left it. *)
Theorem second_sweep_deletes_nothing (now maxAge interval : Z)
    (m : gmap (list N) Fs.node) :
  Forall (λ sweep : Fs.dirstate → Fs.swept,
      (let first := sweep (Fs.Present m) in
       let second := sweep (Fs.after first) in
       Fs.returned second = Some 0 ∧ Fs.removed second = []
       ∧ Fs.after second = Fs.after first)
      ∧ (let first := sweep Fs.Missing in
         let second := sweep (Fs.after first) in
         Fs.returned first = Some 0
         ∧ Fs.returned second = Some 0 ∧ Fs.removed second = []
         ∧ Fs.after second = Fs.after first))
    [ (λ dir, FileManager.cleanupOldFiles Fs.quiet now dir (Some maxAge));
      (λ dir, CleanupScheduler.cleanupDirectory
                {| CleanupScheduler.maxAge := maxAge;
                   CleanupScheduler.interval := interval |} Fs.quiet (λ _, now) dir) ].
Proof.
  constructor; [|constructor; [|constructor]].
  - split; [|by vm_compute].
    exact (SweepFacts.regular_twice now maxAge _ m
             (SweepFacts.FileManager_regular now maxAge)).
  - split; [|by vm_compute].
    exact (SweepFacts.regular_twice now maxAge _ m
             (SweepFacts.CleanupScheduler_regular now maxAge interval)).
Qed.

(** *** The two sweepers compared *)

(** Under any interference that leaves the scheduler's second [stat]
    alone, the two sweepers unlink the same files and leave the same
    directory, and the file manager's count is the scheduler's plus the
    number of expired files lost between the age check and the
    unlink. *)
Lemma file_manager_counts_lost_files (env : Fs.point → list N → bool)
    (now maxAge interval : Z) (m : gmap (list N) Fs.node) :
  (∀ g, env Fs.BeforeRecheck g = false) →
  let fm := FileManager.cleanupOldFiles env now (Fs.Present m) (Some maxAge) in
  let cs := CleanupScheduler.cleanupDirectory
              {| CleanupScheduler.maxAge := maxAge;
                 CleanupScheduler.interval := interval |} env (λ _, now) (Fs.Present m) in
  Fs.after fm = Fs.after cs
  ∧ (∀ f, f ∈ Fs.removed fm ↔ f ∈ Fs.removed cs)
  ∧ Fs.returned cs = Some (Z.of_nat (length (Fs.removed cs)))
  ∧ Fs.returned fm
    = Some (Z.of_nat (length (Fs.removed cs))
            + Z.of_nat (size (filter (λ kv : list N * Fs.node,
                 Sweep.found (env Fs.BeforeStat) (λ _, now) maxAge kv
                 && env Fs.BeforeUnlink kv.1) m))).
Proof.
  intros Hrecheck fm cs.
  destruct (SweepFacts.FileManager_sweep env now maxAge m) as (Hret & Hafter & Hlen & Hmem).
  destruct (SweepFacts.CleanupScheduler_sweep
              {| CleanupScheduler.maxAge := maxAge; CleanupScheduler.interval := interval |}
              env (λ _, now) m Hrecheck) as (Hret' & Hafter' & Hlen' & Hmem').
  fold fm in Hret, Hafter, Hlen, Hmem. fold cs in Hret', Hafter', Hlen', Hmem'.
  simpl in Hret', Hafter', Hlen', Hmem'.
  split; [by rewrite Hafter, Hafter'|]. split; [intros f; by rewrite Hmem, Hmem'|].
  split; [by rewrite Hret', Hlen'|].
  rewrite Hret, Hlen', <- Nat2Z.inj_add. do 2 f_equal.
  rewrite !SweepFacts.size_filter_list.
  induction (map_to_list m) as [|kv l IH]; [done|].
  rewrite !filter_cons.
  destruct (Sweep.found (env Fs.BeforeStat) (λ _, now) maxAge kv) eqn:Hfound,
           (env Fs.BeforeUnlink kv.1) eqn:Hlost;
    repeat (destruct (decide _) as [Hd|Hd]; simpl in Hd; try done;
            try (exfalso; apply Hd; done));
    simpl; lia.
Qed.

(** C10 fails on the code.  One expired regular file that disappears
    between the age check and the unlink: [fs.unlink] rejects with ENOENT
    in both sweepers, neither deletes anything, and yet
    [FileManager.cleanupOldFiles] returns 1 where
    [CleanupScheduler.cleanupDirectory] returns 0. *)
Lemma lost_file_counted_by_file_manager_only :
  let dir := Fs.Present {[ lit "take1.wav" := Fs.RegularFile 0 ]} in
  let env := Sweep.lostBeforeUnlink (λ _, true) in
  FileManager.cleanupOldFiles env 400000 dir (Some 300000)
  = {| Fs.returned := Some 1; Fs.after := Fs.Present ∅; Fs.removed := [] |}
  ∧ CleanupScheduler.cleanupDirectory (CleanupScheduler.new (Some 300000) None)
      env (λ _, 400000) dir
    = {| Fs.returned := Some 0; Fs.after := Fs.Present ∅; Fs.removed := [] |}
  ∧ FileManager.deleteFile env (lit "take1.wav")
      {| Fs.entries := {[ lit "take1.wav" := Fs.RegularFile 0 ]}; Fs.unlinked := [] |}
    = (inl false, {| Fs.entries := ∅; Fs.unlinked := [] |}).
Proof. cbv zeta. split; [|split]; vm_compute; reflexivity. Qed.

(** * Further properties of the code *)

(** ** The worker invoker, continued *)

Module InvokerFacts.
Import PythonService.

Lemma trimStart_head (s : list N) :
  match trimStart s with [] => True | c :: _ => isWhiteSpace c = false end.
Proof.
  induction s as [|c s IH]; simpl; [done|].
  destruct (isWhiteSpace c) eqn:Hc; [done|]. by rewrite Hc.
Qed.

Lemma trimStart_fixed (s : list N) :
  match s with [] => True | c :: _ => isWhiteSpace c = false end → trimStart s = s.
Proof. destruct s as [|c s]; simpl; [done|]. by intros ->. Qed.

(** Trimming the end keeps a non-blank first code unit in place. *)
Lemma trimEnd_head (c : N) (s : list N) :
  isWhiteSpace c = false → ∃ s', trimEnd (c :: s) = c :: s'.
Proof.
  intros Hc. unfold trimEnd. simpl rev.
  assert (∀ l, ∃ l', trimStart (l ++ [c]) = l' ++ [c]) as Hkeep.
  { induction l as [|x l [l' IH]]; simpl.
    - rewrite Hc. by exists [].
    - destruct (isWhiteSpace x); [by exists l'|]. by exists (x :: l). }
  destruct (Hkeep (rev s)) as [l' ->]. rewrite rev_app_distr. simpl. eauto.
Qed.

(** [trim] leaves nothing to trim. *)
Lemma trim_idempotent (s : list N) : trim (trim s) = trim s.
Proof.
  unfold trim.
  assert (trimEnd (trimEnd (trimStart s)) = trimEnd (trimStart s)) as Hend.
  { unfold trimEnd. rewrite rev_involutive. f_equal.
    apply trimStart_fixed. apply trimStart_head. }
  assert (trimStart (trimEnd (trimStart s)) = trimEnd (trimStart s)) as Hstart.
  { pose proof (trimStart_head s) as Hh. destruct (trimStart s) as [|c t]; [done|].
    destruct (trimEnd_head c t Hh) as [s' ->]. simpl. by rewrite Hh. }
  by rewrite Hstart, Hend.
Qed.

(** A resolved promise carries a non-empty path with no blank at either
    end. *)
Lemma resolved_path (timeout : Z) (evs : list event) (p : list N) :
  processAudio timeout evs = Some (Resolved p) → p ≠ [] ∧ trim p = p.
Proof.
  unfold processAudio, settled. rewrite PythonServiceFacts.calls_run.
  destruct (firstSettling evs) as [[pre e]|]; [|done].
  destruct e as [d|d|code|m|]; simpl; try done.
  unfold closeOutcome. destruct code as [[| |]|]; try done.
  destruct (trim _) as [|c q] eqn:Ht; [done|].
  intros [= <-]. split; [done|]. rewrite <- Ht. apply trim_idempotent.
Qed.

Lemma run_flags_after timeout evs : ∀ st,
  processCompleted st = true → timerArmed st = false →
  timerArmed (run timeout st evs) = false
  ∧ killed (run timeout st evs) = killed st
  ∧ calls (run timeout st evs) = calls st.
Proof.
  induction evs as [|e evs IH]; intros st Hc Ha; [done|]. simpl.
  assert (processCompleted (dispatch timeout st e) = true
          ∧ timerArmed (dispatch timeout st e) = false
          ∧ killed (dispatch timeout st e) = killed st
          ∧ calls (dispatch timeout st e) = calls st) as (Hc' & Ha' & Hk & Hcalls).
  { destruct e; simpl; unfold onClose, onError; rewrite ?Hc, ?Ha; done. }
  destruct (IH _ Hc' Ha') as (-> & -> & ->). done.
Qed.

Lemma includes_spec (p s : list N) :
  includes p s = true ↔ ∃ a b, s = a ++ p ++ b.
Proof.
  assert (∀ p s, startsWith p s = true ↔ ∃ b, s = p ++ b) as Hstarts.
  { clear. induction p as [|x p IH]; intros s; simpl.
    - split; [by exists s|done].
    - destruct s as [|y s]; [split; [done|by intros [b ?]]|].
      rewrite andb_true_iff, N.eqb_eq, IH. split.
      + intros [-> [b ->]]. by exists b.
      + intros [b [= -> ->]]. eauto. }
  induction s as [|y s IH]; simpl.
  - rewrite orb_false_r, Hstarts. split.
    + intros [b Hb]. exists [], b. done.
    + intros (a & b & Hab). destruct a; [by exists b|done].
  - rewrite orb_true_iff, Hstarts, IH. split.
    + intros [[b Hb]|(a & b & ->)]; [by exists [], b|by exists (y :: a), b].
    + intros (a & b & Hab). destruct a as [|x a]; [left; by exists b|].
      injection Hab as -> ->. right. eauto.
Qed.

Lemma validate_data (pre : list event) : ∀ st,
  Forall (λ e, closes e = false) pre →
  fold_left validateStep pre st = (st.1 ++ stdoutOf pre, st.2).
Proof.
  induction pre as [|e pre IH]; intros [out calls] Hpre; simpl.
  - by rewrite app_nil_r.
  - inversion Hpre as [|? ? He Hrest]; subst.
    destruct e; try discriminate He; simpl; rewrite (IH _ Hrest); simpl;
      by rewrite <- ?app_assoc.
Qed.

Lemma validate_settlements_grow (evs : list event) : ∀ st,
  ∃ more, (fold_left validateStep evs st).2 = st.2 ++ more.
Proof.
  induction evs as [|e evs IH]; intros [out calls]; simpl.
  - exists []. by rewrite app_nil_r.
  - destruct e; simpl; try apply IH.
    + destruct (IH (out, calls ++ [match code with Some 0 => includes (lit "OK") out
                                                  | _ => false end]))
        as [more ->]. simpl. rewrite <- app_assoc. eauto.
    + destruct (IH (out, calls ++ [false])) as [more ->]. simpl.
      rewrite <- app_assoc. eauto.
Qed.

End InvokerFacts.

(** *** Failure to spawn *)

(** X1. When the ['error'] event of the child (it could not be spawned)
    is the first settling event, the promise is rejected with "Failed to
    start Python engine: <reason>", the child is never sent SIGTERM, and
    the controller answers 500 and moves the job to [failed] with that
    message as its [error], leaving [outputPath] as it was. *)
Theorem spawn_failure_fails_job (timeout : Z) (w : ProcessController.world)
    (audioFiles : gmap (list N) AudioData) (a : list N) (r : AudioData)
    (pre post : list PythonService.event) (reason : list N) :
  a ≠ [] → audioFiles !! a = Some r →
  ProcessController.onDisk w (filepath r) = true →
  ProcessController.worker w (filepath r) = pre ++ PythonService.SpawnError reason :: post →
  Forall (λ e, PythonService.settles e = false) pre →
  let message := lit "Failed to start Python engine: " ++ reason in
  let r' := setFailed message (ProcessController.stamped w) (setProcessing r) in
  PythonService.processAudio timeout (pre ++ PythonService.SpawnError reason :: post)
    = Some (PythonService.Rejected message)
  ∧ PythonService.killed
      (PythonService.run timeout PythonService.init
         (pre ++ PythonService.SpawnError reason :: post)) = false
  ∧ ProcessController.processAudio timeout w audioFiles (Some a)
      = (<[a := r']> audioFiles,
         ProcessController.reply 500 (Failure (lit "Gagal memproses audio: " ++ message)))
  ∧ status_ r' = failed ∧ error r' = Some message ∧ outputPath r' = outputPath r.
Proof.
  intros Ha Hr Hd Hw Hpre message r'.
  destruct (PythonServiceFacts.first_wins timeout pre (PythonService.SpawnError reason) post
              Hpre eq_refl) as [Hcalls Hk].
  assert (PythonService.processAudio timeout (pre ++ PythonService.SpawnError reason :: post)
          = Some (PythonService.Rejected message)) as Hrun.
  { unfold PythonService.processAudio, PythonService.settled. by rewrite Hcalls. }
  repeat split; [done|done|].
  apply (ControllerFacts.processAudio_rejected _ _ _ _ _ _ Ha Hr Hd).
  by rewrite Hw.
Qed.

Lemma spawn_failure_fails_job_witness :
  ProcessController.processAudio 30000
    (Example.world true [PythonService.SpawnError (lit "spawn python ENOENT");
                         PythonService.Close (Some (-2))])
    Example.audioFiles (Some Example.audioId)
  = (<[Example.audioId :=
         setFailed (lit "Failed to start Python engine: spawn python ENOENT") 1700000003501
           (setProcessing Example.record)]> Example.audioFiles,
     ProcessController.reply 500
       (Failure (lit "Gagal memproses audio: Failed to start Python engine: spawn python ENOENT"))).
Proof.
  apply (spawn_failure_fails_job 30000
           (Example.world true [PythonService.SpawnError (lit "spawn python ENOENT");
                                PythonService.Close (Some (-2))])
           Example.audioFiles Example.audioId Example.record
           [] [PythonService.Close (Some (-2))] (lit "spawn python ENOENT"));
    [done | apply audioFiles_record | reflexivity | reflexivity | constructor].
Defined.

(** X2. Whatever events an invocation receives, a settled promise never
    carries an empty text: a resolution is a non-empty path with no blank
    at either end (trimming it again changes nothing), and every
    rejection has a non-empty message. *)
Theorem settlement_is_never_blank (timeout : Z) (evs : list PythonService.event) :
  match PythonService.processAudio timeout evs with
  | Some (PythonService.Resolved p) => p ≠ [] ∧ trim p = p
  | Some (PythonService.Rejected message) => message ≠ []
  | None => True
  end.
Proof.
  destruct (PythonService.processAudio timeout evs) as [[p|message]|] eqn:Ho; [| |done].
  - by apply (InvokerFacts.resolved_path timeout evs).
  - revert Ho. unfold PythonService.processAudio, PythonService.settled.
    rewrite PythonServiceFacts.calls_run.
    destruct (PythonService.firstSettling evs) as [[pre e]|]; [|done].
    destruct e as [d|d|code|m|]; simpl; try done; try (by intros [= <-]).
    unfold PythonService.closeOutcome.
    destruct code as [[| |]|];
      try (intros [= <-]; apply PythonServiceFacts.parseErrorMessage_nonempty).
    destruct (trim _); by intros [= <-].
Qed.

(** X3. The outcome depends only on the concatenation of the decoded
    stdout chunks and the concatenation of the decoded stderr chunks
    delivered before the first settling event, and on that event: how
    the decoded text is distributed over the chunks of a stream, how the
    chunks of the two streams interleave, and everything delivered after
    the first settling event make no difference.  (Each chunk is decoded
    on its own by [data.toString()]; what a chunk boundary inside a
    multi-byte sequence does to the decoded text is not part of this
    statement.) *)
Theorem outcome_depends_on_text_and_first_settling_event (timeout : Z)
    (pre1 pre2 post1 post2 : list PythonService.event) (e : PythonService.event) :
  Forall (λ e, PythonService.settles e = false) pre1 →
  Forall (λ e, PythonService.settles e = false) pre2 →
  PythonService.settles e = true →
  PythonService.stdoutOf pre1 = PythonService.stdoutOf pre2 →
  PythonService.stderrOf pre1 = PythonService.stderrOf pre2 →
  PythonService.processAudio timeout (pre1 ++ e :: post1)
  = PythonService.processAudio timeout (pre2 ++ e :: post2).
Proof.
  intros H1 H2 He Hout Herr.
  unfold PythonService.processAudio, PythonService.settled.
  destruct (PythonServiceFacts.first_wins timeout pre1 e post1 H1 He) as [-> _].
  destruct (PythonServiceFacts.first_wins timeout pre2 e post2 H2 He) as [-> _].
  by rewrite (PythonServiceFacts.run_data _ _ _ H1), (PythonServiceFacts.run_data _ _ _ H2),
    Hout, Herr.
Qed.

Lemma outcome_depends_on_text_and_first_settling_event_witness :
  PythonService.processAudio 30000
    [PythonService.StdoutData (lit "/outputs/a"); PythonService.StderrData (lit "note");
     PythonService.StdoutData (lit ".wav"); PythonService.Close (Some 0);
     PythonService.TimerFired]
  = PythonService.processAudio 30000
      [PythonService.StderrData (lit "no"); PythonService.StdoutData (lit "/outputs/a.wav");
       PythonService.StderrData (lit "te"); PythonService.Close (Some 0)].
Proof.
  apply (outcome_depends_on_text_and_first_settling_event 30000
           [PythonService.StdoutData (lit "/outputs/a"); PythonService.StderrData (lit "note");
            PythonService.StdoutData (lit ".wav")]
           [PythonService.StderrData (lit "no"); PythonService.StdoutData (lit "/outputs/a.wav");
            PythonService.StderrData (lit "te")]
           [PythonService.TimerFired] [] (PythonService.Close (Some 0)));
    [repeat constructor | repeat constructor | reflexivity | reflexivity | reflexivity].
Defined.

(** X4. Over any sequence of events the child has been sent SIGTERM
    exactly when the timer was the first settling event (a child that
    exits or fails to spawn first is never killed, also when the timer
    callback is delivered later), and the timer is pending exactly while
    no settling event has been delivered. *)
Theorem child_is_killed_only_by_the_timeout (timeout : Z) (evs : list PythonService.event) :
  PythonService.killed (PythonService.run timeout PythonService.init evs)
  = match PythonService.firstSettling evs with
    | Some (_, PythonService.TimerFired) => true
    | _ => false
    end
  ∧ PythonService.timerArmed (PythonService.run timeout PythonService.init evs)
    = match PythonService.firstSettling evs with
      | Some _ => false
      | None => true
      end.
Proof.
  destruct (PythonService.firstSettling evs) as [[pre e]|] eqn:Hf.
  - destruct (PythonServiceFacts.firstSettling_split _ _ _ Hf) as (post & -> & Hpre & He).
    destruct (PythonServiceFacts.first_wins timeout pre e post Hpre He) as [_ ->].
    split; [by destruct e|].
    rewrite PythonServiceFacts.run_app. simpl.
    assert (PythonService.processCompleted
              (PythonService.dispatch timeout
                 (PythonService.run timeout PythonService.init pre) e) = true
            ∧ PythonService.timerArmed
                (PythonService.dispatch timeout
                   (PythonService.run timeout PythonService.init pre) e) = false) as [Hc Ha].
    { rewrite (PythonServiceFacts.run_data _ _ _ Hpre).
      by destruct e. }
    by destruct (InvokerFacts.run_flags_after timeout post _ Hc Ha) as (-> & _).
  - by rewrite (PythonServiceFacts.run_data _ _ _ (PythonServiceFacts.firstSettling_None _ Hf)).
Qed.

(** X5. [validateEnvironment] is pending until the first ['close'] or
    ['error'] of the child and is decided by it: it returns [true]
    exactly when that event is an exit with code 0 and the stdout
    written before it contains "OK" somewhere, and [false] otherwise
    (a nonzero or signalled exit, a spawn error, no "OK"); stderr and
    later events play no part. *)
Theorem validateEnvironment_first_exit_decides (pre post : list PythonService.event)
    (e : PythonService.event) :
  Forall (λ e, PythonService.closes e = false) pre →
  PythonService.closes e = true →
  PythonService.validateEnvironment pre = None
  ∧ PythonService.validateEnvironment (pre ++ e :: post)
    = Some (match e with
            | PythonService.Close (Some 0) =>
                PythonService.includes (lit "OK") (PythonService.stdoutOf pre)
            | _ => false
            end)
  ∧ (PythonService.validateEnvironment (pre ++ e :: post) = Some true
     ↔ e = PythonService.Close (Some 0)
       ∧ ∃ a b, PythonService.stdoutOf pre = a ++ lit "OK" ++ b).
Proof.
  intros Hpre He.
  assert (PythonService.validateEnvironment (pre ++ e :: post)
          = Some (match e with
                  | PythonService.Close (Some 0) =>
                      PythonService.includes (lit "OK") (PythonService.stdoutOf pre)
                  | _ => false
                  end)) as Hval.
  { unfold PythonService.validateEnvironment.
    rewrite fold_left_app, (InvokerFacts.validate_data pre _ Hpre). cbn [fold_left fst snd].
    destruct e as [d|d|code|m|]; try discriminate He; simpl.
    - destruct (InvokerFacts.validate_settlements_grow post
                  (PythonService.stdoutOf pre,
                   [match code with
                    | Some 0 => PythonService.includes (lit "OK") (PythonService.stdoutOf pre)
                    | _ => false
                    end])) as [more ->]. done.
    - destruct (InvokerFacts.validate_settlements_grow post
                  (PythonService.stdoutOf pre, [false])) as [more ->]. done. }
  split; [|split; [done|]].
  - unfold PythonService.validateEnvironment.
    by rewrite (InvokerFacts.validate_data pre _ Hpre).
  - rewrite Hval. split.
    + intros [= Hok]. destruct e as [d|d|[[| |]|]|m|]; try done.
      split; [done|]. by apply InvokerFacts.includes_spec.
    + intros [-> Hab]. f_equal. by apply InvokerFacts.includes_spec.
Qed.

Lemma validateEnvironment_first_exit_decides_witness :
  PythonService.validateEnvironment
    ([PythonService.StdoutData (lit "O"); PythonService.StderrData (lit "warning");
      PythonService.StdoutData (lit "K
")] ++ PythonService.Close (Some 0) :: [])
  = Some true.
Proof.
  rewrite (proj1 (proj2 (validateEnvironment_first_exit_decides
             [PythonService.StdoutData (lit "O"); PythonService.StderrData (lit "warning");
              PythonService.StdoutData (lit "K
")] [] (PythonService.Close (Some 0)) ltac:(repeat constructor) eq_refl))).
  reflexivity.
Defined.

Module PatternFacts.
Import PythonService.

(** A text splits in one way only into a run of code units satisfying
    [p] and a rest that does not start with one. *)
Lemma span_unique (p : N → bool) (a b a' b' : list N) :
  Forall (λ c, p c = true) a → Forall (λ c, p c = true) a' →
  (∀ c t, b = c :: t → p c = false) → (∀ c t, b' = c :: t → p c = false) →
  a ++ b = a' ++ b' → a = a' ∧ b = b'.
Proof.
  intros Ha Ha' Hb Hb' Heq.
  assert (∀ x y, Forall (λ c, p c = true) x → (∀ c t, y = c :: t → p c = false) →
            span p (x ++ y) = (x, y)) as Hspan.
  { intros x y Hx Hy. rewrite (RegexFacts.span_all p x y Hx).
    destruct y as [|c t]; simpl; [by rewrite app_nil_r|].
    rewrite (Hy c t eq_refl). simpl. by rewrite app_nil_r. }
  pose proof (Hspan a b Ha Hb) as H1. pose proof (Hspan a' b' Ha' Hb') as H2.
  rewrite Heq, H2 in H1. by injection H1 as -> ->.
Qed.

End PatternFacts.

(** X6. Which part of stderr the failure message is read from: when
    [ERROR:<CODE>:<detail>] occurs in stderr, with [<CODE>] a non-empty
    run of [A-Z_], [<detail>] non-empty and running to the end of its
    line, and no occurrence of the pattern starts earlier, then
    [parseErrorMessage] takes exactly this code and this detail: the
    text before it and the lines after it (further [ERROR:] lines
    included) are ignored. *)
Theorem first_error_line_decides_message (noise code detail rest : list N) :
  let stderr := noise ++ lit "ERROR:" ++ code ++ 58%N :: detail ++ rest in
  code ≠ [] → Forall (λ c, PythonService.isCodeChar c = true) code →
  detail ≠ [] → Forall (λ c, isLineTerminator c = false) detail →
  (∀ c rest', rest = c :: rest' → isLineTerminator c = true) →
  (∀ pre errorType detail' post,
     PythonService.matchAt stderr pre errorType detail' post →
     (length noise ≤ length pre)%nat) →
  PythonService.errorMatch stderr = Some (code, detail)
  ∧ PythonService.parseErrorMessage stderr
    = prop_or (PythonService.getProp (PythonService.errorMessages (trim detail)) code)
              (lit "Processing error: " ++ trim detail).
Proof.
  intros stderr Hcode Hcodech Hdet Hdetch Hrest Hleft.
  assert (PythonService.matchAt stderr noise code detail rest) as Hat by done.
  assert (PythonService.errorMatch stderr = Some (code, detail)) as Hm.
  { destruct (PythonService.errorMatch stderr) as [[ty d]|] eqn:Hm;
      [|by destruct (RegexFacts.errorMatch_None _ Hm _ _ _ _ Hat)].
    destruct (RegexFacts.errorMatch_Some _ _ _ Hm)
      as (pre & post & Hat' & Hpost & Hleft').
    pose proof (Hleft _ _ _ _ Hat') as Hle1. pose proof (Hleft' _ _ _ _ Hat) as Hle2.
    destruct Hat' as (Heq & Hty & Htych & Hd & Hdch).
    unfold stderr in Heq.
    apply app_inj_1 in Heq as [<- Heq]; [|lia].
    apply app_inv_head in Heq.
    destruct (PatternFacts.span_unique PythonService.isCodeChar
                code (58%N :: detail ++ rest) ty (58%N :: d ++ post))
      as [<- Heq']; try done.
    { by intros c t [= <- _]. }
    { by intros c t [= <- _]. }
    injection Heq' as Heq'.
    destruct (PatternFacts.span_unique (λ c, negb (isLineTerminator c))
                detail rest d post) as [<- _]; try done.
    - eapply Forall_impl; [exact Hdetch|]. intros x Hx. by apply negb_true_iff.
    - eapply Forall_impl; [exact Hdch|]. intros x Hx. by apply negb_true_iff.
    - intros c t Ht. apply negb_false_iff. by apply (Hrest c t).
    - intros c t Ht. apply negb_false_iff. by apply (Hpost c t). }
  split; [done|]. unfold PythonService.parseErrorMessage. by rewrite Hm.
Qed.

Lemma first_error_line_decides_message_witness :
  PythonService.parseErrorMessage
    (lit "W
" ++ lit "ERROR:" ++ lit "PROCESSING_FAILED" ++ 58%N :: lit "pitch ERROR:X:y " ++ lit "
ERROR:FILE_NOT_FOUND:late")
  = lit "Audio processing failed: pitch ERROR:X:y".
Proof.
  rewrite (proj2 (first_error_line_decides_message (lit "W
") (lit "PROCESSING_FAILED") (lit "pitch ERROR:X:y ") (lit "
ERROR:FILE_NOT_FOUND:late")
    ltac:(discriminate) ltac:(repeat constructor) ltac:(discriminate)
    ltac:(repeat constructor)
    ltac:(intros c rest' [= <- _]; reflexivity)
    ltac:(intros [|? [|? pre]] ty d post [Heq _]; simpl; try lia; discriminate Heq))).
  reflexivity.
Defined.

(** ** The controllers together *)

Module EndpointFacts.

Lemma uploadFields_alter (f : AudioData → AudioData) (a k : list N)
    (audioFiles : gmap (list N) AudioData) :
  (∀ r, uploadFields (f r) = uploadFields r) →
  uploadFields <$> (alter f a audioFiles !! k) = uploadFields <$> (audioFiles !! k).
Proof.
  intros Hf. rewrite lookup_alter. case_decide; [subst a|done].
  destruct (audioFiles !! k); simpl; [f_equal; apply Hf|done].
Qed.

Lemma uploadFields_afterAccess (ok : bool) (audioFiles : gmap (list N) AudioData)
    (a : list N) (t : Z) (p k : list N) :
  uploadFields <$> ((ProcessController.afterAccess ok audioFiles a t p).1 !! k)
  = uploadFields <$> (audioFiles !! k).
Proof.
  unfold ProcessController.afterAccess. destruct ok; [|done].
  by apply uploadFields_alter.
Qed.

Lemma uploadFields_afterWorker (o : PythonService.outcome) (finished stamped : Z)
    (audioFiles : gmap (list N) AudioData) (a : list N) (t : Z) (k : list N) :
  uploadFields <$> ((ProcessController.afterWorker o finished stamped audioFiles a t).1 !! k)
  = uploadFields <$> (audioFiles !! k).
Proof.
  unfold ProcessController.afterWorker. destruct o; by apply uploadFields_alter.
Qed.

Lemma uploadFields_deliver (sys : gmap (list N) AudioData * list ProcessController.task)
    (inp : ProcessController.input) (k : list N) :
  uploadFields <$> ((ProcessController.deliver sys inp).1 !! k)
  = uploadFields <$> (sys.1 !! k).
Proof.
  destruct sys as [audioFiles tasks].
  destruct inp as [a t|i ok|i o fin st]; simpl; [done| |].
  - destruct (tasks !! i) as [[?|a t p|? ? ?|?]|]; try done.
    pose proof (uploadFields_afterAccess ok audioFiles a t p k) as H.
    by destruct (ProcessController.afterAccess ok audioFiles a t p).
  - destruct (tasks !! i) as [[?|? ? ?|a t p|?]|]; try done.
    pose proof (uploadFields_afterWorker o fin st audioFiles a t k) as H.
    by destruct (ProcessController.afterWorker o fin st audioFiles a t).
Qed.

(** The ways a call of [processAudio] can end, with what each one needs
    and leaves. *)
Lemma processAudio_cases (timeout : Z) (w : ProcessController.world)
    (audioFiles : gmap (list N) AudioData) (a : list N) :
  a ≠ [] →
  (audioFiles !! a = None
   ∧ ProcessController.processAudio timeout w audioFiles (Some a)
     = (audioFiles, ProcessController.reply 404 (Failure (lit "Audio tidak ditemukan"))))
  ∨ ∃ r, audioFiles !! a = Some r
    ∧ ((ProcessController.onDisk w (filepath r) = false
        ∧ ProcessController.processAudio timeout w audioFiles (Some a)
          = (audioFiles,
             ProcessController.reply 404 (Failure (lit "File audio tidak ditemukan di server"))))
       ∨ (PythonService.processAudio timeout (ProcessController.worker w (filepath r)) = None
          ∧ ProcessController.processAudio timeout w audioFiles (Some a)
            = (<[a := setProcessing r]> audioFiles,
               ProcessController.AwaitWorker a (ProcessController.startTime w) (filepath r)))
       ∨ (∃ out, PythonService.processAudio timeout (ProcessController.worker w (filepath r))
                 = Some (PythonService.Resolved out)
          ∧ ProcessController.processAudio timeout w audioFiles (Some a)
            = (<[a := setCompleted out
                        (Qmake (ProcessController.finished w - ProcessController.startTime w) 1000)
                        (ProcessController.stamped w) (setProcessing r)]> audioFiles,
               ProcessController.reply 200
                 (Processed a out
                    (Qmake (ProcessController.finished w - ProcessController.startTime w) 1000))))
       ∨ (∃ message, PythonService.processAudio timeout
                       (ProcessController.worker w (filepath r))
                     = Some (PythonService.Rejected message)
          ∧ ProcessController.processAudio timeout w audioFiles (Some a)
            = (<[a := setFailed message (ProcessController.stamped w) (setProcessing r)]>
                 audioFiles,
               ProcessController.reply 500
                 (Failure (lit "Gagal memproses audio: " ++ message))))).
Proof.
  intros Ha. destruct (audioFiles !! a) as [r|] eqn:Hr.
  - right. exists r. split; [done|].
    destruct (ProcessController.onDisk w (filepath r)) eqn:Hd;
      [|left; split; [done|]; exact (ControllerFacts.processAudio_missing _ _ _ _ r Ha Hr Hd)].
    right.
    destruct (PythonService.processAudio timeout (ProcessController.worker w (filepath r)))
      as [[out|message]|] eqn:Ho.
    + right. left. exists out. split; [done|].
      exact (ControllerFacts.processAudio_resolved _ _ _ _ r _ Ha Hr Hd Ho).
    + right. right. exists message. split; [done|].
      exact (ControllerFacts.processAudio_rejected _ _ _ _ r _ Ha Hr Hd Ho).
    + left. split; [done|].
      unfold ProcessController.processAudio, ProcessController.enter. rewrite Hr.
      destruct a; [done|]. unfold ProcessController.afterAccess. rewrite Hd, Ho.
      by rewrite (ControllerFacts.alter_present _ _ _ _ Hr).
  - left. split; [done|].
    unfold ProcessController.processAudio, ProcessController.enter. rewrite Hr.
    by destruct a.
Qed.

End EndpointFacts.

(** X7. Upload then info: after [handleUpload] has stored a file under a
    non-empty id, [getAudioInfo] for that id answers 200 with exactly the
    metadata the upload response carried (status [uploaded]), and the
    answer for every other id is what it was before the upload. *)
Theorem upload_then_info_round_trip (audioFiles : gmap (list N) AudioData)
    (a : list N) (now : Z) (f : UploadController.file) :
  a ≠ [] →
  let up := UploadController.handleUpload a now (Some f) audioFiles in
  ∃ md, up.2 = {| statusCode := 200; json := Uploaded md |}
        ∧ InfoController.getAudioInfo up.1 (Some a) = {| statusCode := 200; json := Info md |}
        ∧ m_id md = a ∧ m_filename md = UploadController.originalname f
        ∧ m_size md = UploadController.fsize f ∧ m_status md = uploaded
        ∧ ∀ b, b ≠ a →
            InfoController.getAudioInfo up.1 (Some b)
            = InfoController.getAudioInfo audioFiles (Some b).
Proof.
  intros Ha up. eexists. split; [reflexivity|]. split; [|repeat split].
  - unfold InfoController.getAudioInfo, up. simpl. rewrite lookup_insert_eq.
    by destruct a.
  - intros b Hb. unfold InfoController.getAudioInfo, up. simpl.
    destruct b; [done|]. by rewrite lookup_insert_ne.
Qed.

Lemma upload_then_info_round_trip_witness :
  InfoController.getAudioInfo Example.audioFiles (Some Example.audioId)
  = {| statusCode := 200;
       json := Info {| m_id := Example.audioId; m_filename := lit "take1.wav";
                       m_duration := 0; m_size := 2048; m_format := lit "wav";
                       m_status := uploaded; m_uploadedAt := 1700000000000;
                       m_completedAt := None; m_processingTime := None;
                       m_failedAt := None; m_error := None |} |}.
Proof.
  destruct (upload_then_info_round_trip ∅ Example.audioId 1700000000000 Example.upload)
    as (md & Hup & Hinfo & _); [done|].
  injection Hup as <-. exact Hinfo.
Defined.

(** X8. The upload filter and the format table agree: a mimetype the
    filter accepts is given one of the formats wav, mp3, webm, ogg by
    [getFormatFromMimetype], never "unknown"; the error the filter raises
    for any other mimetype is answered by the error middleware with 400
    and the filter's message, and such a mimetype, unless it names a
    property of [Object.prototype] (where the table lookup finds an
    inherited value), would be given "unknown". *)
Theorem fileFilter_and_format_table_agree (mimetype : list N) :
  match UploadController.fileFilter mimetype with
  | inl _ =>
      UploadController.getFormatFromMimetype mimetype
        ∈ [lit "wav"; lit "mp3"; lit "webm"; lit "ogg"]
  | inr err =>
      ErrorHandler.errorHandler err
        = {| statusCode := 400;
             json := Failure (lit "Format file tidak didukung. Gunakan .wav, .mp3, atau .webm") |}
      ∧ (inherited mimetype = false →
         UploadController.getFormatFromMimetype mimetype = lit "unknown")
  end.
Proof.
  unfold UploadController.fileFilter, UploadController.allowedMimeTypes,
    UploadController.getFormatFromMimetype, UploadController.mimeToFormat, existsb,
    PythonService.getProp, eqstr.
  repeat (case_bool_decide; simplify_eq/=; try done).
  all: rewrite !elem_of_cons; tauto.
Qed.

Lemma fileFilter_and_format_table_agree_witness :
  UploadController.getFormatFromMimetype (lit "video/mp4") = lit "unknown".
Proof.
  exact (proj2 (fileFilter_and_format_table_agree (lit "video/mp4")) eq_refl).
Defined.

(** X9. Processing never adds or removes a registry entry and never
    changes what the upload stored ([id], [filename], [size],
    [duration], [format], [uploadedAt], [filepath], [storedFilename]) in
    any record: for one [processAudio] call run on its own, with any
    argument, and for any interleaving of concurrent calls. *)
Theorem processing_never_touches_upload_fields (timeout : Z) (w : ProcessController.world)
    (audioFiles : gmap (list N) AudioData) (tasks : list ProcessController.task)
    (inps : list ProcessController.input) (audioId : option (list N)) (k : list N) :
  uploadFields <$> ((ProcessController.serve (audioFiles, tasks) inps).1 !! k)
  = uploadFields <$> (audioFiles !! k)
  ∧ uploadFields <$> ((ProcessController.processAudio timeout w audioFiles audioId).1 !! k)
    = uploadFields <$> (audioFiles !! k).
Proof.
  split.
  - unfold ProcessController.serve.
    change audioFiles with ((audioFiles, tasks).1) at 2.
    generalize (audioFiles, tasks). clear audioFiles tasks.
    induction inps as [|inp inps IH]; intros sys; [done|].
    simpl. by rewrite IH, EndpointFacts.uploadFields_deliver.
  - destruct audioId as [[|c a]|]; [done| |done].
    destruct (EndpointFacts.processAudio_cases timeout w audioFiles (c :: a))
      as [[_ ->]|(r & Hr & [[_ ->]|[[_ ->]|[(out & _ & ->)|(message & _ & ->)]]])];
      try done; simpl;
      (destruct (decide (k = c :: a)) as [->|Hne];
       [by rewrite lookup_insert_eq, Hr|by rewrite lookup_insert_ne]).
Qed.

(** X10. Process then info.  When [processAudio] has responded, either it
    answered 200 and [getAudioInfo] now shows the job [completed] with
    the same [processingTime], the completion instant and no error
    fields; or it answered 500 "Gagal memproses audio: <reason>" and
    [getAudioInfo] shows the job [failed] with exactly that reason as
    [error], the failure instant and no completion fields; or it
    answered 400 or 404 and the registry is unchanged. *)
Theorem info_reports_what_processing_answered (timeout : Z) (w : ProcessController.world)
    (audioFiles audioFiles' : gmap (list N) AudioData) (a : list N) (res : response) :
  ProcessController.processAudio timeout w audioFiles (Some a)
    = (audioFiles', ProcessController.Responded res) →
  (statusCode res = 200 ∧
   ∃ out t md,
     json res = Processed a out t
     ∧ InfoController.getAudioInfo audioFiles' (Some a)
       = {| statusCode := 200; json := Info md |}
     ∧ m_status md = completed ∧ m_processingTime md = Some t
     ∧ m_completedAt md = Some (ProcessController.stamped w)
     ∧ m_error md = None ∧ m_failedAt md = None)
  ∨ (statusCode res = 500 ∧
     ∃ reason md,
       json res = Failure (lit "Gagal memproses audio: " ++ reason)
       ∧ InfoController.getAudioInfo audioFiles' (Some a)
         = {| statusCode := 200; json := Info md |}
       ∧ m_status md = failed ∧ m_error md = Some reason
       ∧ m_failedAt md = Some (ProcessController.stamped w)
       ∧ m_processingTime md = None ∧ m_completedAt md = None)
  ∨ ((statusCode res = 400 ∨ statusCode res = 404) ∧ audioFiles' = audioFiles).
Proof.
  intros Hcall. destruct a as [|c a].
  { injection Hcall as <- <-. right. right. split; [by left|done]. }
  destruct (EndpointFacts.processAudio_cases timeout w audioFiles (c :: a))
    as [[_ Heq]|(r & Hr & [[_ Heq]|[[_ Heq]|[(out & _ & Heq)|(message & _ & Heq)]]])];
    try done; rewrite Heq in Hcall; try discriminate Hcall;
    injection Hcall as <- <-.
  - right. right. split; [by right|done].
  - right. right. split; [by right|done].
  - left. split; [done|]. do 2 eexists.
    unfold InfoController.getAudioInfo. rewrite lookup_insert_eq. simpl.
    eexists. split; [reflexivity|]. split; [reflexivity|]. done.
  - right. left. split; [done|]. exists message.
    unfold InfoController.getAudioInfo. rewrite lookup_insert_eq. simpl.
    eexists. split; [reflexivity|]. split; [reflexivity|]. done.
Qed.

Lemma info_reports_what_processing_answered_witness :
  ∃ md,
    InfoController.getAudioInfo
      (<[Example.audioId := setFailed (lit "Audio file not found") 1700000003501
                              (setProcessing Example.record)]> Example.audioFiles)
      (Some Example.audioId)
    = {| statusCode := 200; json := Info md |}
    ∧ m_status md = failed ∧ m_error md = Some (lit "Audio file not found").
Proof.
  destruct (info_reports_what_processing_answered 30000
              (Example.world true [PythonService.StderrData (lit "ERROR:FILE_NOT_FOUND:x");
                                   PythonService.Close (Some 1)])
              Example.audioFiles
              (<[Example.audioId := setFailed (lit "Audio file not found") 1700000003501
                                      (setProcessing Example.record)]> Example.audioFiles)
              Example.audioId
              {| statusCode := 500;
                 json := Failure (lit "Gagal memproses audio: Audio file not found") |})
    as [[Hcode _]|[(_ & reason & md & Hjson & Hinfo & Hst & Herr & _)|[[Hcode|Hcode] _]]];
    [vm_compute; reflexivity | discriminate Hcode | | discriminate Hcode
    | discriminate Hcode].
  exists md. split; [exact Hinfo|]. split; [exact Hst|].
  rewrite Herr. f_equal. vm_compute in Hjson. by simplify_eq.
Defined.

(** X11. Process then download.  After [processAudio] answered 200 with
    an output path, [downloadAudio] for the same id looks at exactly that
    path: it answers 404 when the file is not accessible, passes the
    error on when [fs.stat] rejects, and otherwise builds the header
    [attachment; filename="<original name without extension>-tuned
    <extension of the output>"]; when that value holds a code unit
    [setHeader] refuses (a control character or one above 255), the
    [TypeError] it throws is passed to [next], which the error
    middleware answers with 500; else the file is streamed as
    [audio/wav] with the size [fs.stat] gives.  After a 500, and while
    the worker is still running, it answers 400 "Audio belum selesai
    diproses". *)
Theorem download_follows_processing (basename : list N → list N → list N)
    (extname : list N → list N) (disk : DownloadController.world)
    (timeout : Z) (w : ProcessController.world)
    (audioFiles audioFiles' : gmap (list N) AudioData) (a : list N)
    (tk : ProcessController.task) :
  ProcessController.processAudio timeout w audioFiles (Some a) = (audioFiles', tk) →
  let refused :=
    DownloadController.Sent
      {| statusCode := 400; json := Failure (lit "Audio belum selesai diproses") |} in
  (∀ out t, tk = ProcessController.reply 200 (Processed a out t) →
     ∃ r, audioFiles !! a = Some r
       ∧ DownloadController.downloadAudio basename extname disk audioFiles' (Some a)
         = if DownloadController.onDisk disk out then
             match DownloadController.statSize disk out with
             | inl size =>
                 let contentDisposition :=
                   lit "attachment; filename=" ++ [34%N]
                   ++ (basename (filename r) (extname (filename r))
                       ++ lit "-tuned" ++ extname out) ++ [34%N] in
                 if DownloadController.checkInvalidHeaderChar contentDisposition
                 then DownloadController.Passed
                        (DownloadController.ERR_INVALID_CHAR (lit "Content-Disposition"))
                 else DownloadController.Streamed (lit "audio/wav") size
                        contentDisposition out
             | inr err => DownloadController.Passed err
             end
           else DownloadController.Sent
                  {| statusCode := 404;
                     json := Failure (lit "File hasil tuning tidak ditemukan") |})
  ∧ ErrorHandler.errorHandler
      (DownloadController.ERR_INVALID_CHAR (lit "Content-Disposition"))
    = {| statusCode := 500;
         json := Failure (lit "Invalid character in header content ["
                          ++ [34%N] ++ lit "Content-Disposition" ++ [34%N] ++ lit "]") |}
  ∧ (∀ message, tk = ProcessController.reply 500 (Failure message) →
       DownloadController.downloadAudio basename extname disk audioFiles' (Some a) = refused)
  ∧ (∀ t p, tk = ProcessController.AwaitWorker a t p →
       DownloadController.downloadAudio basename extname disk audioFiles' (Some a) = refused).
Proof.
  intros Hcall refused. destruct a as [|c a].
  { injection Hcall as <- <-. by split; [|split; [reflexivity|split]]. }
  destruct (EndpointFacts.processAudio_cases timeout w audioFiles (c :: a))
    as [[_ Heq]|(r & Hr & [[_ Heq]|[[_ Heq]|[(out & Ho & Heq)|(message & _ & Heq)]]])];
    try done; rewrite Heq in Hcall; injection Hcall as <- <-;
    (split; [|split; [reflexivity|split]]); try done.
  - intros t p _. unfold DownloadController.downloadAudio.
    by rewrite lookup_insert_eq.
  - intros out' t [= <- <-]. exists r. split; [done|].
    destruct (InvokerFacts.resolved_path _ _ _ Ho) as [Hne _].
    unfold DownloadController.downloadAudio. rewrite lookup_insert_eq. simpl.
    destruct out as [|x out]; [done|]. done.
  - intros m _. unfold DownloadController.downloadAudio.
    by rewrite lookup_insert_eq.
Qed.

Lemma download_follows_processing_witness :
  DownloadController.downloadAudio (λ _ _, lit "take1") (λ _, lit ".wav")
    {| DownloadController.onDisk := λ _, true;
       DownloadController.statSize := λ _, inl 4096 |}
    (<[Example.audioId :=
         setCompleted (lit "/outputs/abc-tuned.wav") (Qmake 2500 1000) 1700000003501
           (setProcessing Example.record)]> Example.audioFiles)
    (Some Example.audioId)
  = DownloadController.Streamed (lit "audio/wav") 4096
      (lit "attachment; filename=" ++ [34%N] ++ lit "take1-tuned.wav" ++ [34%N])
      (lit "/outputs/abc-tuned.wav").
Proof.
  destruct (download_follows_processing (λ _ _, lit "take1") (λ _, lit ".wav")
              {| DownloadController.onDisk := λ _, true;
                 DownloadController.statSize := λ _, inl 4096 |}
              30000
              (Example.world true [PythonService.StdoutData (lit "/outputs/abc-tuned.wav ");
                                   PythonService.Close (Some 0)])
              Example.audioFiles
              (<[Example.audioId :=
                   setCompleted (lit "/outputs/abc-tuned.wav") (Qmake 2500 1000) 1700000003501
                     (setProcessing Example.record)]> Example.audioFiles)
              Example.audioId
              (ProcessController.reply 200
                 (Processed Example.audioId (lit "/outputs/abc-tuned.wav") (Qmake 2500 1000))))
    as (Hok & _ & _ & _); [vm_compute; reflexivity|].
  destruct (Hok _ _ eq_refl) as (r & Hr & ->).
  rewrite audioFiles_record in Hr. injection Hr as <-. reflexivity.
Defined.





(** ** Timers and schedulers *)

Module TimerFacts.

(** Clearing a handle that was never given out changes nothing. *)
Lemma clear_unknown (h : nat) (l : list (nat * Z)) (bound : nat) :
  Forall (λ hd : nat * Z, (hd.1 < bound)%nat) l → (bound ≤ h)%nat →
  filter (λ hd : nat * Z, hd.1 ≠ h) l = l.
Proof.
  intros Hl Hh. induction Hl as [|hd l Hhd Hl IH]; [done|].
  rewrite filter_cons, IH. rewrite decide_True; [done|lia].
Qed.

Lemma clear_latest (h : nat) (delay : Z) (tm : Timers.t) :
  Timers.known tm → (Timers.nextId tm ≤ h)%nat →
  Timers.live (Timers.clearInterval h
                 {| Timers.nextId := S h; Timers.live := (h, delay) :: Timers.live tm |})
  = Timers.live tm.
Proof.
  intros Hk Hh. simpl. rewrite filter_cons. simpl.
  rewrite decide_False by (intros Hne; by apply Hne).
  by apply (clear_unknown h _ (Timers.nextId tm)).
Qed.

Lemma after_range (delay : Z) : 1 ≤ Timers.after delay ≤ Timers.TIMEOUT_MAX.
Proof.
  unfold Timers.after, Timers.TIMEOUT_MAX.
  destruct (Z.leb_spec 1 delay), (Z.leb_spec delay (2 ^ 31 - 1)); simpl; lia.
Qed.

End TimerFacts.

(** X14. Over any sequence of [start()] and [stop()] calls on a new
    [CleanupScheduler], the instance owns at most one interval timer:
    the timers running are those that ran before plus, exactly when the
    instance has a handle, one timer, which runs with the configured
    interval when that lies within 1 ms and [2 ^ 31 - 1] ms and with 1 ms
    otherwise (Node's replacement of a delay out of range);
    [getStatus()] is [true] exactly when it has a handle, which is
    exactly when the last call was [start()].  A repeated [start()]
    creates no second timer and [stop()] leaks none. *)
Theorem scheduler_owns_at_most_one_timer (config : CleanupScheduler.t)
    (uploadDir outputDir : list N) (tm0 : Timers.t) (calls : list Scheduling.call) :
  Timers.known tm0 →
  let s := fold_left Scheduling.apply calls
             (Scheduling.fresh config uploadDir outputDir, tm0) in
  CleanupScheduler.getStatus s.1
    = match last calls with Some Scheduling.Start => true | _ => false end
  ∧ Timers.live s.2
    = match CleanupScheduler.timer s.1 with
      | Some h => [(h, Timers.after (CleanupScheduler.interval config))]
      | None => []
      end ++ Timers.live tm0
  ∧ CleanupScheduler.getStatus s.1 = populated (CleanupScheduler.timer s.1)
  ∧ (1 ≤ CleanupScheduler.interval config ≤ Timers.TIMEOUT_MAX →
     Timers.after (CleanupScheduler.interval config) = CleanupScheduler.interval config).
Proof.
  intros Hknown. cbv zeta.
  assert (∀ calls,
            let s := fold_left Scheduling.apply calls
                       (Scheduling.fresh config uploadDir outputDir, tm0) in
            CleanupScheduler.isRunning s.1
              = match last calls with Some Scheduling.Start => true | _ => false end
            ∧ Timers.live s.2
              = match CleanupScheduler.timer s.1 with
                | Some h => [(h, Timers.after (CleanupScheduler.interval config))]
                | None => []
                end ++ Timers.live tm0
            ∧ CleanupScheduler.isRunning s.1 = populated (CleanupScheduler.timer s.1)
            ∧ CleanupScheduler.config s.1 = config
            ∧ (Timers.nextId tm0 ≤ Timers.nextId s.2)%nat
            ∧ (∀ h, CleanupScheduler.timer s.1 = Some h →
                    (Timers.nextId tm0 ≤ h)%nat)) as Hinv.
  { clear calls. induction calls as [|c calls IH] using rev_ind.
    { simpl. repeat split; try done. }
    cbv zeta in IH |- *. rewrite fold_left_app, last_snoc. cbn [fold_left].
    destruct (fold_left Scheduling.apply calls
                (Scheduling.fresh config uploadDir outputDir, tm0)) as [inst tm].
    destruct IH as (_ & Hlive & Hrun & Hcfg & Hnext & Hh).
    destruct inst as [cfg u o timer running]. simpl in *. subst cfg.
    destruct c; unfold Scheduling.apply, CleanupScheduler.start, CleanupScheduler.stop;
      simpl; destruct running; simpl.
    - destruct timer as [h|]; [|done]. repeat split; try done.
    - destruct timer as [h|]; [done|]. simpl in Hlive.
      repeat split; try done; simpl.
      + by rewrite Hlive.
      + lia.
      + intros h [= <-]. done.
    - destruct timer as [h|]; [|done]. simpl.
      repeat split; try done. simpl in Hlive. rewrite Hlive. simpl.
      rewrite filter_cons. simpl.
      rewrite decide_False by (intros Hne; by apply Hne).
      apply (TimerFacts.clear_unknown h _ (Timers.nextId tm0)); [done|].
      by apply Hh.
    - destruct timer as [h|]; [done|]. repeat split; try done. }
  destruct (Hinv calls) as (H1 & H2 & H3 & _).
  split; [done|]. split; [done|]. split; [done|].
  intros [Hlo Hhi]. unfold Timers.after.
  by rewrite (proj2 (Z.leb_le _ _) Hlo), (proj2 (Z.leb_le _ _) Hhi).
Qed.

Lemma scheduler_owns_at_most_one_timer_witness :
  Timers.live
    (fold_left Scheduling.apply
       [Scheduling.Start; Scheduling.Start; Scheduling.Stop; Scheduling.Stop; Scheduling.Start]
       (Scheduling.fresh (CleanupScheduler.new None (Some 60000)) (lit "./uploads")
          (lit "./outputs"),
        {| Timers.nextId := 8; Timers.live := [(7%nat, 1000)] |})).2
  = [(9%nat, 60000); (7%nat, 1000)].
Proof.
  rewrite (proj1 (proj2 (scheduler_owns_at_most_one_timer
             (CleanupScheduler.new None (Some 60000)) (lit "./uploads") (lit "./outputs")
             {| Timers.nextId := 8; Timers.live := [(7%nat, 1000)] |}
             [Scheduling.Start; Scheduling.Start; Scheduling.Stop; Scheduling.Stop;
              Scheduling.Start]
             ltac:(repeat constructor)))).
  reflexivity.
Defined.

(** X15. [FileManager.startCleanupScheduler] has no such guard.  Each
    call registers one more timer.  The delay it runs with lies within
    1 ms and [2 ^ 31 - 1] ms: it is the argument when that lies in this
    range; an argument that is negative or above the range gives a timer
    of 1 ms; with no argument (or 0) and no [CLEANUP_INTERVAL] (or 0) it
    is five minutes.  [stopCleanupScheduler] with the handle returned
    removes exactly that timer, with no handle it does nothing; after
    two starts, stopping the second leaves the first running. *)
Theorem file_manager_timers_pile_up (interval envInterval : option Z) (tm : Timers.t) :
  Timers.known tm →
  let first := FileManager.startCleanupScheduler interval envInterval tm in
  let second := FileManager.startCleanupScheduler interval envInterval first.2 in
  ∃ delay,
    1 ≤ delay ≤ Timers.TIMEOUT_MAX
    ∧ (∀ i, interval = Some i → 1 ≤ i ≤ Timers.TIMEOUT_MAX → delay = i)
    ∧ (∀ i, interval = Some i → i < 0 ∨ Timers.TIMEOUT_MAX < i → delay = 1)
    ∧ ((interval = None ∨ interval = Some 0) →
       (envInterval = None ∨ envInterval = Some 0) → delay = 5 * 60 * 1000)
    ∧ Timers.live first.2 = (first.1, delay) :: Timers.live tm
    ∧ Timers.live (FileManager.stopCleanupScheduler (Some first.1) first.2) = Timers.live tm
    ∧ FileManager.stopCleanupScheduler None first.2 = first.2
    ∧ Timers.live second.2 = (second.1, delay) :: (first.1, delay) :: Timers.live tm
    ∧ Timers.live (FileManager.stopCleanupScheduler (Some second.1) second.2)
      = (first.1, delay) :: Timers.live tm.
Proof.
  intros Hknown first second.
  exists (Timers.after
            (match interval with
             | Some 0 | None =>
                 match envInterval with Some 0 | None => 5 * 60 * 1000 | Some e => e end
             | Some i => i
             end)).
  split; [apply TimerFacts.after_range|].
  split.
  { intros i -> [Hlo Hhi]. destruct i as [|i|i]; [lia| |lia].
    change (Timers.after (Z.pos i) = Z.pos i). unfold Timers.after.
    by rewrite (proj2 (Z.leb_le _ _) Hlo), (proj2 (Z.leb_le _ _) Hhi). }
  split.
  { intros i -> Hi. unfold Timers.TIMEOUT_MAX in Hi.
    destruct i as [|i|i]; [lia| |done].
    change (Timers.after (Z.pos i) = 1). unfold Timers.after, Timers.TIMEOUT_MAX.
    destruct (Z.leb_spec (Z.pos i) (2 ^ 31 - 1)); [lia|]. by rewrite andb_false_r. }
  split; [by intros [->| ->] [->| ->]|].
  split; [done|]. split; [|split; [done|split; [done|]]].
  - unfold first, FileManager.startCleanupScheduler, Timers.setInterval,
      FileManager.stopCleanupScheduler.
    destruct tm as [n l]. by apply (TimerFacts.clear_latest n _ {| Timers.nextId := n |}).
  - unfold second, first, FileManager.startCleanupScheduler, Timers.setInterval,
      FileManager.stopCleanupScheduler. cbn [fst snd Timers.nextId Timers.live].
    set (delay := Timers.after _).
    apply (TimerFacts.clear_latest (S (Timers.nextId tm)) delay
             {| Timers.nextId := S (Timers.nextId tm);
                Timers.live := (Timers.nextId tm, delay) :: Timers.live tm |}); [|done].
    constructor; [simpl; lia|].
    eapply Forall_impl; [exact Hknown|]. simpl. intros hd Hhd. lia.
Qed.

Lemma file_manager_timers_pile_up_witness :
  Timers.live
    (FileManager.startCleanupScheduler None (Some 60000)
       (FileManager.startCleanupScheduler None (Some 60000)
          {| Timers.nextId := 0; Timers.live := [] |}).2).2
  = [(1%nat, 60000); (0%nat, 60000)].
Proof.
  destruct (file_manager_timers_pile_up None (Some 60000)
              {| Timers.nextId := 0; Timers.live := [] |})
    as (delay & _ & _ & _ & _ & Hfirst & _ & _ & Hsecond & _); [constructor|].
  injection Hfirst as <-. exact Hsecond.
Defined.


(** X17. When the uploads directory cannot be created or listed, the
    file manager's scheduled pass fails as a whole and never sweeps the
    outputs directory, whereas the scheduler's [runCleanup] counts 0 for
    uploads and sweeps the outputs directory as if nothing had
    happened. *)
Theorem unreadable_uploads_directory (config : CleanupScheduler.t)
    (uploads outputs : list N) (envU envO : Fs.point → list N → bool)
    (nowU nowO : Z) (clockU clockO : list N → Z) (stamp : Z) (fs : list N → Fs.dirstate) :
  fs uploads = Fs.Inaccessible → outputs ≠ uploads →
  FileManager.scheduledCleanup
    {| FileManager.uploadDir := uploads; FileManager.outputDir := outputs |}
    envU envO nowU nowO fs = (None, fs)
  ∧ let out := CleanupScheduler.runCleanup (Scheduling.fresh config uploads outputs)
                 envU envO clockU clockO stamp fs in
    let sweep := CleanupScheduler.cleanupDirectory config envO clockO (fs outputs) in
    CleanupScheduler.uploadDeleted out.1.1 = 0
    ∧ Some (CleanupScheduler.outputDeleted out.1.1) = Fs.returned sweep
    ∧ out.1.2 outputs = Fs.after sweep
    ∧ out.1.2 uploads = Fs.Inaccessible
    ∧ out.2 = ([], Fs.removed sweep).
Proof.
  intros Hu Hne. split.
  - unfold FileManager.scheduledCleanup. simpl. by rewrite Hu.
  - cbv zeta. unfold CleanupScheduler.runCleanup. simpl.
    assert (CleanupScheduler.cleanupDirectory config envU clockU (fs uploads)
            = {| Fs.returned := Some 0; Fs.after := Fs.Inaccessible; Fs.removed := [] |})
      as -> by (by rewrite Hu).
    simpl.
    assert (Fs.setDir uploads Fs.Inaccessible fs outputs = fs outputs) as ->
      by (unfold Fs.setDir; by rewrite bool_decide_eq_false_2).
    split; [done|]. split; [by rewrite SweepFacts.CleanupScheduler_counts_unlinks|].
    split; [unfold Fs.setDir; by rewrite bool_decide_eq_true_2|].
    split; [|done]. unfold Fs.setDir.
    rewrite (bool_decide_eq_false_2 (uploads = outputs)) by done.
    by rewrite bool_decide_eq_true_2.
Qed.

Lemma unreadable_uploads_directory_witness :
  (CleanupScheduler.runCleanup
     (Scheduling.fresh (CleanupScheduler.new None None) (lit "./uploads") (lit "./outputs"))
     Fs.quiet Fs.quiet (λ _, 400000) (λ _, 400000) 400001
     (Fs.setDir (lit "./uploads") Fs.Inaccessible
        (λ _, Fs.Present {[ lit "a-tuned.wav" := Fs.RegularFile 0 ]}))).2
  = ([], [lit "a-tuned.wav"]).
Proof.
  destruct (unreadable_uploads_directory (CleanupScheduler.new None None)
              (lit "./uploads") (lit "./outputs") Fs.quiet Fs.quiet 400000 400000
              (λ _, 400000) (λ _, 400000) 400001
              (Fs.setDir (lit "./uploads") Fs.Inaccessible
                 (λ _, Fs.Present {[ lit "a-tuned.wav" := Fs.RegularFile 0 ]})))
    as (_ & _ & _ & _ & _ & ->); [reflexivity | vm_compute; discriminate |].
  vm_compute. reflexivity.
Defined.

(** ** Sweeps under interference *)

Module SafetyFacts.
Import Fs.

(** What one iteration may do to the directory, whatever disappears
    around it: the entry it looks at may go, and it is unlinked by the
    sweep only if the sweep saw it as a regular file past the age. *)
Lemma FileManager_visit_safe (env : point → list N → bool) (now maxAge : Z)
    (d : disk) (c : Z) (f : list N) :
  let d' := (FileManager.visit env now maxAge (d, c) f).1 in
  (entries d' = entries d ∨ entries d' = delete f (entries d))
  ∧ (unlinked d' = unlinked d
     ∨ unlinked d' = f :: unlinked d ∧ entries d' = delete f (entries d)
       ∧ ∃ t, entries d !! f = Some (RegularFile t) ∧ maxAge < now - t).
Proof.
  cbv zeta. rewrite SweepFacts.FileManager_visit_step. unfold Sweep.step.
  destruct (env BeforeStat f); simpl; [by split; [right|left]|].
  destruct (entries d !! f) as [[t|t]|] eqn:Hf; simpl; try (by split; left).
  destruct (now - t >? maxAge) eqn:Hold; [|by split; left].
  destruct (env BeforeUnlink f); simpl; [by split; [right|left]|].
  split; [by right|]. right. split; [done|]. split; [done|]. exists t. split; [done|lia].
Qed.

Lemma CleanupScheduler_visit_safe (this : CleanupScheduler.t)
    (env : point → list N → bool) (clock : list N → Z) (d : disk) (c : Z) (f : list N) :
  let d' := (CleanupScheduler.visit this env clock (d, c) f).1 in
  (entries d' = entries d ∨ entries d' = delete f (entries d))
  ∧ (unlinked d' = unlinked d
     ∨ unlinked d' = f :: unlinked d ∧ entries d' = delete f (entries d)
       ∧ ∃ t, entries d !! f = Some (RegularFile t)
              ∧ CleanupScheduler.maxAge this < clock f - t).
Proof.
  cbv zeta. unfold CleanupScheduler.visit, stat, disturb.
  destruct (env BeforeStat f); simpl.
  { rewrite lookup_delete_eq. by split; [right|left]. }
  destruct (entries d !! f) as [[t|t]|] eqn:Hf; simpl; try (by split; left).
  unfold CleanupScheduler.isFileOld, stat, disturb.
  destruct (env BeforeRecheck f); simpl.
  { rewrite lookup_delete_eq. by split; [right|left]. }
  rewrite Hf. simpl.
  destruct (clock f - t >? CleanupScheduler.maxAge this) eqn:Hold; [|by split; left].
  unfold CleanupScheduler.deleteFile, unlink, disturb.
  destruct (env BeforeUnlink f); simpl.
  { rewrite lookup_delete_eq. by split; [right|left]. }
  rewrite Hf. simpl.
  split; [by right|]. right. split; [done|]. split; [done|]. exists t. split; [done|lia].
Qed.

(** A loop of such iterations over any list of names. *)
Lemma loop_safe (visit : disk * Z → list N → disk * Z) (clock : list N → Z) (maxAge : Z)
    (m : gmap (list N) node) :
  (∀ d c f,
     let d' := (visit (d, c) f).1 in
     (entries d' = entries d ∨ entries d' = delete f (entries d))
     ∧ (unlinked d' = unlinked d
        ∨ unlinked d' = f :: unlinked d ∧ entries d' = delete f (entries d)
          ∧ ∃ t, entries d !! f = Some (RegularFile t) ∧ maxAge < clock f - t)) →
  ∀ (l : list (list N)) (acc : disk * Z),
    (entries acc.1 ⊆ m
     ∧ ∀ g, g ∈ unlinked acc.1 →
            entries acc.1 !! g = None
            ∧ ∃ t, m !! g = Some (RegularFile t) ∧ maxAge < clock g - t) →
    let d' := (fold_left visit l acc).1 in
    entries d' ⊆ m
    ∧ ∀ g, g ∈ unlinked d' →
           entries d' !! g = None
           ∧ ∃ t, m !! g = Some (RegularFile t) ∧ maxAge < clock g - t.
Proof.
  intros Hvisit. induction l as [|f l IH]; intros [d c] Hinv; [done|].
  cbn [fold_left]. apply IH. simpl in Hinv. destruct Hinv as [Hsub Hlog].
  destruct (Hvisit d c f) as [Hent Hunl].
  destruct (visit (d, c) f) as [d1 c1]. simpl in *.
  assert (entries d1 ⊆ entries d) as Hsub1.
  { destruct Hent as [->| ->]; [done|apply delete_subseteq]. }
  split; [by transitivity (entries d)|].
  assert (∀ g, entries d !! g = None → entries d1 !! g = None) as Hnone.
  { intros g Hg. destruct Hent as [->| ->]; [done|].
    apply lookup_delete_None. by right. }
  destruct Hunl as [->|(-> & Hdel & t & Hf & Hage)].
  - intros g Hg. destruct (Hlog g Hg) as [Hgone Hwas]. split; [by apply Hnone|done].
  - intros g [->|Hg]%elem_of_cons.
    + split; [rewrite Hdel; apply lookup_delete_eq|].
      exists t. split; [|done]. by apply (lookup_weaken _ _ _ _ Hf).
    + destruct (Hlog g Hg) as [Hgone Hwas]. split; [by apply Hnone|done].
Qed.

End SafetyFacts.

(** X18. Neither sweeper ever deletes a file it should keep, whatever
    other processes remove from the directory during the sweep: every
    entry it unlinked was, when the sweep started, a regular file older
    than [maxAge] at the instant it was checked, and is gone afterwards;
    the directory afterwards holds only entries it held before,
    unchanged.  Directories and files within [maxAge] are never
    unlinked. *)
Theorem sweeps_only_unlink_expired_files (env : Fs.point → list N → bool)
    (now maxAge : Z) (this : CleanupScheduler.t) (clock : list N → Z)
    (m : gmap (list N) Fs.node) :
  let fm := FileManager.cleanupOldFiles env now (Fs.Present m) (Some maxAge) in
  let cs := CleanupScheduler.cleanupDirectory this env clock (Fs.Present m) in
  (∃ m', Fs.after fm = Fs.Present m' ∧ m' ⊆ m
         ∧ ∀ f, f ∈ Fs.removed fm →
                m' !! f = None
                ∧ ∃ t, m !! f = Some (Fs.RegularFile t) ∧ maxAge < now - t)
  ∧ (∃ m', Fs.after cs = Fs.Present m' ∧ m' ⊆ m
           ∧ ∀ f, f ∈ Fs.removed cs →
                  m' !! f = None
                  ∧ ∃ t, m !! f = Some (Fs.RegularFile t)
                         ∧ CleanupScheduler.maxAge this < clock f - t).
Proof.
  cbv zeta. split.
  - unfold FileManager.cleanupOldFiles. cbn [Fs.mkdir default from_option].
    pose proof (SafetyFacts.loop_safe (FileManager.visit env now maxAge) (λ _, now) maxAge m
                  (SafetyFacts.FileManager_visit_safe env now maxAge) (Fs.readdir m)
                  ({| Fs.entries := m; Fs.unlinked := [] |}, 0)) as Hloop.
    cbv zeta in Hloop.
    destruct (fold_left _ _ _) as [d c]. simpl in Hloop |- *.
    exists (Fs.entries d). split; [done|]. apply Hloop. split; [done|].
    by intros g ?%elem_of_nil.
  - unfold CleanupScheduler.cleanupDirectory. cbn [Fs.mkdir].
    pose proof (SafetyFacts.loop_safe (CleanupScheduler.visit this env clock) clock
                  (CleanupScheduler.maxAge this) m
                  (SafetyFacts.CleanupScheduler_visit_safe this env clock) (Fs.readdir m)
                  ({| Fs.entries := m; Fs.unlinked := [] |}, 0)) as Hloop.
    cbv zeta in Hloop.
    destruct (fold_left _ _ _) as [d c]. simpl in Hloop |- *.
    exists (Fs.entries d). split; [done|]. apply Hloop. split; [done|].
    by intros g ?%elem_of_nil.
Qed.

(** ** Stored files *)

Module FileFacts.
Import Fs.

Lemma lit_inj (s1 s2 : string) : lit s1 = lit s2 → s1 = s2.
Proof.
  unfold lit. intros Heq.
  rewrite <- (string_of_list_ascii_of_string s1), <- (string_of_list_ascii_of_string s2).
  f_equal. revert Heq. generalize (list_ascii_of_string s1) (list_ascii_of_string s2).
  induction l as [|a l IH]; intros [|b l']; simpl; try done.
  intros [= Hab Hl]. f_equal; [|by apply IH].
  by rewrite <- (ascii_N_embedding a), <- (ascii_N_embedding b), Hab.
Qed.

(** The decimal numeral of a number that is not negative holds no
    hyphen. *)
Lemma Number_toString_digits (n : Z) :
  0 ≤ n → Forall (λ c, negb (N.eqb c 45) = true) (Number_toString n).
Proof.
  intros Hn. unfold Number_toString.
  assert (∀ d, Forall (λ c, negb (N.eqb c 45) = true) (lit (NilEmpty.string_of_uint d)))
    as Hdigits.
  { induction d; simpl; try (constructor; [reflexivity|assumption]). constructor. }
  destruct n as [|p|p]; [repeat constructor| |lia].
  simpl. unfold NilZero.string_of_uint.
  destruct (Pos.to_uint p) eqn:Hp; try (rewrite <- Hp; apply Hdigits).
  repeat constructor.
Qed.

Lemma Number_toString_inj (n1 n2 : Z) :
  Number_toString n1 = Number_toString n2 → n1 = n2.
Proof.
  unfold Number_toString. intros Heq%lit_inj.
  assert (∀ n, Z.to_int n ≠ Decimal.Pos Decimal.Nil ∧ Z.to_int n ≠ Decimal.Neg Decimal.Nil)
    as Hnonnil.
  { intros [|p|p]; simpl; split; try discriminate; intros [= Hp];
      by apply (Unsigned.to_uint_nonnil p). }
  rewrite <- (DecimalZ.of_to n1), <- (DecimalZ.of_to n2). f_equal.
  destruct (Hnonnil n1) as [H1 H1'], (Hnonnil n2) as [H2 H2'].
  pose proof (NilZero.isi _ H1 H1') as Hi1. pose proof (NilZero.isi _ H2 H2') as Hi2.
  rewrite Heq in Hi1. congruence.
Qed.

End FileFacts.

(** X19. [generateUniqueFilename] gives different names for different
    uuids: two generated names (timestamps not negative, uuids of the
    same length, as [Date.now()] and [uuidv4()] give them) are equal
    only if the timestamps, the uuids and the extensions are equal. *)
Theorem generateUniqueFilename_distinct (extname : list N → list N)
    (timestamp1 timestamp2 : Z) (uuid1 uuid2 originalName1 originalName2 : list N) :
  0 ≤ timestamp1 → 0 ≤ timestamp2 → length uuid1 = length uuid2 →
  FileManager.generateUniqueFilename extname timestamp1 uuid1 originalName1
    = FileManager.generateUniqueFilename extname timestamp2 uuid2 originalName2 →
  timestamp1 = timestamp2 ∧ uuid1 = uuid2
  ∧ extname originalName1 = extname originalName2.
Proof.
  intros H1 H2 Hlen Heq. unfold FileManager.generateUniqueFilename in Heq.
  destruct (PatternFacts.span_unique (λ c, negb (N.eqb c 45))
              (Number_toString timestamp1) (lit "-" ++ uuid1 ++ extname originalName1)
              (Number_toString timestamp2) (lit "-" ++ uuid2 ++ extname originalName2))
    as [Ht Hrest]; try done.
  - by apply FileFacts.Number_toString_digits.
  - by apply FileFacts.Number_toString_digits.
  - by intros c t [= <- _].
  - by intros c t [= <- _].
  - injection Hrest as Hrest. apply app_inj_1 in Hrest as [-> ->]; [|done].
    split; [by apply FileFacts.Number_toString_inj|done].
Qed.

Lemma generateUniqueFilename_distinct_witness :
  (1700000000000 = 1700000000000
   ∧ lit "3f2c9a7e-5b1d-4c8e-9f00-7a6b5c4d3e2f" = lit "3f2c9a7e-5b1d-4c8e-9f00-7a6b5c4d3e2f"
   ∧ lit ".wav" = lit ".wav")
  ∧ FileManager.generateUniqueFilename (λ _, lit ".wav") 1700000000000
      (lit "3f2c9a7e-5b1d-4c8e-9f00-7a6b5c4d3e2f") (lit "take1.wav")
    = lit "1700000000000-3f2c9a7e-5b1d-4c8e-9f00-7a6b5c4d3e2f.wav".
Proof.
  split; [|reflexivity].
  apply (generateUniqueFilename_distinct (λ _, lit ".wav") 1700000000000 1700000000000
           (lit "3f2c9a7e-5b1d-4c8e-9f00-7a6b5c4d3e2f")
           (lit "3f2c9a7e-5b1d-4c8e-9f00-7a6b5c4d3e2f") (lit "take1.wav") (lit "take2.wav"));
    [lia | lia | reflexivity | reflexivity].
Defined.

(** X20. The name multer stores an upload under: two uploads (timestamps
    not negative, as [Date.now()] gives them) get the same stored file
    name exactly when they carry the same original name and arrive in
    the same millisecond; the audio id plays no part in it. *)
Theorem stored_names_collide_only_within_a_millisecond (timestamp1 timestamp2 : Z)
    (originalname1 originalname2 : list N) :
  0 ≤ timestamp1 → 0 ≤ timestamp2 →
  UploadController.storageFilename timestamp1 originalname1
    = UploadController.storageFilename timestamp2 originalname2
  ↔ timestamp1 = timestamp2 ∧ originalname1 = originalname2.
Proof.
  intros H1 H2. split; [|by intros [-> ->]].
  unfold UploadController.storageFilename. intros Heq.
  destruct (PatternFacts.span_unique (λ c, negb (N.eqb c 45))
              (Number_toString timestamp1) (lit "-" ++ originalname1)
              (Number_toString timestamp2) (lit "-" ++ originalname2))
    as [Ht Hrest]; try done.
  - by apply FileFacts.Number_toString_digits.
  - by apply FileFacts.Number_toString_digits.
  - by intros c t [= <- _].
  - by intros c t [= <- _].
  - injection Hrest as ->. split; [by apply FileFacts.Number_toString_inj|done].
Qed.

Lemma stored_names_collide_only_within_a_millisecond_witness :
  UploadController.storageFilename 1700000000000 (lit "my-take.wav")
  = lit "1700000000000-my-take.wav"
  ∧ (UploadController.storageFilename 1700000000000 (lit "my-take.wav")
     = UploadController.storageFilename 1700000000000 (lit "my-take.wav")).
Proof.
  split; [reflexivity|].
  apply (proj2 (stored_names_collide_only_within_a_millisecond
                  1700000000000 1700000000000 (lit "my-take.wav") (lit "my-take.wav")
                  ltac:(lia) ltac:(lia))).
  split; reflexivity.
Defined.



(** X22. The two [deleteFile]s, under any interference: they leave the
    same directory, the scheduler's returns [true] exactly when the file
    manager's does, which is exactly when the file was unlinked by the
    call; no other entry is affected; and once a call has returned
    [true] or [false], deleting the same path again returns [false]
    (it does not throw) and changes nothing. *)
Theorem deleteFile_is_idempotent (env : Fs.point → list N → bool) (f : list N)
    (d : Fs.disk) :
  let fm := FileManager.deleteFile env f d in
  let cs := CleanupScheduler.deleteFile env f d in
  cs.2 = fm.2
  ∧ (cs.1 = true ↔ fm.1 = inl true)
  ∧ (fm.1 = inl true → Fs.unlinked fm.2 = f :: Fs.unlinked d)
  ∧ (fm.1 ≠ inl true → Fs.unlinked fm.2 = Fs.unlinked d)
  ∧ (∀ g, g ≠ f → Fs.entries fm.2 !! g = Fs.entries d !! g)
  ∧ (∀ env', fm.1 = inl true ∨ fm.1 = inl false →
       FileManager.deleteFile env' f fm.2 = (inl false, fm.2)
       ∧ CleanupScheduler.deleteFile env' f fm.2 = (false, fm.2)).
Proof.
  cbv zeta. unfold FileManager.deleteFile, CleanupScheduler.deleteFile, Fs.unlink.
  cbv zeta.
  assert (∀ g, g ≠ f → Fs.entries (Fs.disturb env Fs.BeforeUnlink f d) !! g
                       = Fs.entries d !! g) as Hframe.
  { intros g Hg. unfold Fs.disturb. destruct (env Fs.BeforeUnlink f); [|done].
    simpl. by rewrite lookup_delete_ne. }
  assert (Fs.unlinked (Fs.disturb env Fs.BeforeUnlink f d) = Fs.unlinked d) as Hlog
    by (unfold Fs.disturb; by destruct (env Fs.BeforeUnlink f)).
  assert (∀ env' (d1 : Fs.disk), Fs.entries d1 !! f = None →
            Fs.disturb env' Fs.BeforeUnlink f d1 = d1) as Hgone.
  { intros env' [e u] He. unfold Fs.disturb. destruct (env' Fs.BeforeUnlink f); [|done].
    simpl in *. by rewrite delete_id. }
  destruct (Fs.entries (Fs.disturb env Fs.BeforeUnlink f d) !! f) as [[t|t]|] eqn:Hf;
    cbn [fst snd Fs.entries Fs.unlinked].
  - split; [done|]. split; [done|]. split; [by rewrite Hlog|]. split; [done|].
    split; [intros g Hg; by rewrite lookup_delete_ne, Hframe|].
    intros env' _. rewrite Hgone by apply lookup_delete_eq.
    cbn [Fs.entries]. by rewrite lookup_delete_eq.
  - split; [done|]. split; [done|]. split; [done|]. split; [done|].
    split; [done|]. by intros env' [?|?].
  - split; [done|]. split; [done|]. split; [done|]. split; [done|].
    split; [done|]. intros env' _. rewrite Hgone by done. by rewrite Hf.
Qed.

Lemma deleteFile_is_idempotent_witness :
  FileManager.deleteFile Fs.quiet (lit "a.wav")
    (FileManager.deleteFile Fs.quiet (lit "a.wav")
       {| Fs.entries := {[ lit "a.wav" := Fs.RegularFile 0 ]}; Fs.unlinked := [] |}).2
  = (inl false,
     (FileManager.deleteFile Fs.quiet (lit "a.wav")
        {| Fs.entries := {[ lit "a.wav" := Fs.RegularFile 0 ]}; Fs.unlinked := [] |}).2).
Proof.
  destruct (deleteFile_is_idempotent Fs.quiet (lit "a.wav")
              {| Fs.entries := {[ lit "a.wav" := Fs.RegularFile 0 ]}; Fs.unlinked := [] |})
    as (_ & _ & _ & _ & _ & Hagain).
  apply (Hagain Fs.quiet). left. reflexivity.
Defined.
